(** * The bulk cache of the Linear provider: a shallow embedding

    Source: [internal/provider/bulk_cache.go].

    [BulkCache] memoizes, per resource category (issue labels, workflow
    states, templates, teams), the result of one full traversal of the
    category's list endpoint.  The four categories are hand-duplicated in
    the source; every method reads and writes only [c.client] and the three
    fields of its own category ([xOnce], [x], [xErr]).  The embedding
    therefore describes one category generically ([Category]) and obtains
    the source's methods as its four instances.

    Conventions of the embedding:
    - the remote GraphQL endpoint is an explicit state [World]; a request
      is a function from the cursor and the world to a response, a Go
      [error] (nil or not) and the next world;
    - [*T] is an address into a typed heap ([list T]); [&v] allocates;
    - [map[string]*T] is [option (gmap string ptr)], [None] being Go's nil
      map;
    - a function returns [None] when the Go code does not return normally
      (the page loop has not ended within the given fuel, or a runtime
      panic);
    - concurrent callers are goroutines that interleave step by step, the
      gate being Go's [sync.Once];
    - the messages given to [tflog.Debug] are left out of the state, since
      the cache never reads them; [ensureTraced] is the populate routine
      with them. *)

From stdpp Require Import base option list gmap strings pretty.

(** ** Go values *)

(** A non-nil value of the interface [error].  [RemoteError] is whatever
    the GraphQL client reports, [Errorf] an error built by [fmt.Errorf]. *)
Inductive error : Type :=
  | RemoteError (detail : string)
  | Errorf (msg : string).

Global Instance error_eq_dec : EqDecision error.
Proof. solve_decision. Defined.

(** A pointer: nil or the address of a cell. *)
Inductive ptr : Type :=
  | NilPtr
  | Ptr (a : nat).

Global Instance ptr_eq_dec : EqDecision ptr.
Proof. solve_decision. Defined.

(** [&v]: a fresh cell holding a copy of [v]. *)
Definition new {T} (v : T) (h : list T) : ptr * list T :=
  (Ptr (length h), h ++ [v]).

(** [*p]; [None] is the nil-dereference panic. *)
Definition deref {T} (p : ptr) (h : list T) : option T :=
  match p with
  | NilPtr => None
  | Ptr a => h !! a
  end.

(** [v, ok := m[k]] on a possibly nil map. *)
Definition mapIndex (m : option (gmap string ptr)) (k : string) : option ptr :=
  match m with
  | None => None
  | Some g => g !! k
  end.

(** [m[k] = p]; assignment to an entry of a nil map panics. *)
Definition mapAssign (k : string) (p : ptr) (m : option (gmap string ptr))
  : option (option (gmap string ptr)) :=
  match m with
  | None => None
  | Some g => Some (Some (<[k := p]> g))
  end.

(** ** The generated GraphQL types

    The Go types of the records and of the responses are generated from
    the GraphQL schema and are not part of [bulk_cache.go]. *)

(** Modelled from the spec: the type [IssueLabel], an opaque record with a
    unique identifier string; [IssueLabel_Name] stands for the rest of its
    fields. *)
Record IssueLabel : Type := mkIssueLabel {
  IssueLabel_Id : string;
  IssueLabel_Name : string
}.

(** Modelled from the spec: the type of the field [Team] of a workflow
    state, the foreign reference to the owning team's identifier. *)
Record WorkflowStateTeam : Type := mkWorkflowStateTeam {
  WorkflowStateTeam_Id : string
}.

(** Modelled from the spec: the type [WorkflowState], a record with an
    identifier and the reference [ws.Team.Id] to its owning team;
    [WorkflowState_Name] stands for the rest of its fields, which are
    values. *)
Record WorkflowState : Type := mkWorkflowState {
  WorkflowState_Id : string;
  WorkflowState_Name : string;
  WorkflowState_Team : WorkflowStateTeam
}.

(** Modelled from the spec: the type [Template]. *)
Record Template : Type := mkTemplate {
  Template_Id : string;
  Template_Name : string
}.

(** Modelled from the spec: the type [Team], which has besides its
    identifier the human-readable key [team.Key]. *)
Record Team : Type := mkTeam {
  Team_Id : string;
  Team_Key : string;
  Team_Name : string
}.

(** Modelled from the spec: the page information of a list response,
    [hasMore] and [nextCursor] in the words of the specification. *)
Record PageInfo : Type := mkPageInfo {
  HasNextPage : bool;
  EndCursor : string
}.

(** Modelled from the spec: one page of a list response.  A node of the
    generated response embeds the record ([node.IssueLabel], [node.Team],
    ...); [Nodes] lists these embedded records. *)
Record Connection (T : Type) : Type := mkConnection {
  Nodes : list T;
  PageInfoOf : PageInfo
}.
Arguments mkConnection {T} _ _.
Arguments Nodes {T} _.
Arguments PageInfoOf {T} _.

(** ** The remote endpoint *)

Inductive Request : Type :=
  | ListPage (after : option string)
  | ListAll.

Global Instance Request_eq_dec : EqDecision Request.
Proof. solve_decision. Defined.

(** The client handle: the state of the remote and the requests sent
    through the handle so far (a ghost log, appended by [callPage] and
    [callAll] only). *)
Record Client (World : Type) : Type := mkClient {
  world : World;
  calls : list Request
}.
Arguments mkClient {World} _ _.
Arguments world {World} _.
Arguments calls {World} _.

(** How a category is listed: page by page ([listAllLabelsPage],
    [listAllWorkflowStatesPage], [listAllTeamsPage]) or in one request
    ([listAllTemplates]). *)
Inductive Fetch (World T : Type) : Type :=
  | Paged (listPage : option string → World → Connection T * option error * World)
  | Whole (listAll : World → list T * option error * World).
Arguments Paged {World T} _.
Arguments Whole {World T} _.

(** What distinguishes the four copies of the pattern in the source. *)
Record Category (World T : Type) : Type := mkCategory {
  key : T → string;          (* label.Id, ws.Id, t.Id, team.Key *)
  fetch : Fetch World T;
  noun : string              (* "label", "workflow state", ... *)
}.
Arguments mkCategory {World T} _ _ _.
Arguments key {World T} _ _.
Arguments fetch {World T} _.
Arguments noun {World T} _.

(** ** One category's share of the process state

    [State] is [BulkCache] restricted to what the methods of one category
    touch -- the client handle, the category's gate, map and error slot --
    together with the cells of the Go heap that the pointers in the map
    (and the slices handed to callers) refer to. *)

Record State (World T : Type) : Type := mkState {
  client : Client World;                  (* c.client *)
  heap : list T;                          (* the cells of type T *)
  once : bool;                            (* c.xOnce: its done flag *)
  items : option (gmap string ptr);       (* c.x *)
  err : option error                      (* c.xErr *)
}.
Arguments mkState {World T} _ _ _ _ _.
Arguments client {World T} _.
Arguments heap {World T} _.
Arguments once {World T} _.
Arguments items {World T} _.
Arguments err {World T} _.

Section Cache.
Context {World T : Type}.
Implicit Types (s : State World T) (c : Category World T).

Definition set_client (cl : Client World) s : State World T :=
  mkState cl (heap s) (once s) (items s) (err s).
Definition set_heap (h : list T) s : State World T :=
  mkState (client s) h (once s) (items s) (err s).
Definition set_once (b : bool) s : State World T :=
  mkState (client s) (heap s) b (items s) (err s).
Definition set_items (m : option (gmap string ptr)) s : State World T :=
  mkState (client s) (heap s) (once s) m (err s).
Definition set_err (e : option error) s : State World T :=
  mkState (client s) (heap s) (once s) (items s) e.

(** [newBulkCache(client)]: every field but [client] has its zero value. *)
Definition newBulkCache (cl : Client World) (h : list T) : State World T :=
  mkState cl h false None None.

(** [listAllXPage(ctx, c.client, cursor)] *)
Definition callPage
    (listPage : option string → World → Connection T * option error * World)
    (cursor : option string) s : Connection T * option error * State World T :=
  let '(resp, e, w) := listPage cursor (world (client s)) in
  (resp, e, set_client (mkClient w (calls (client s) ++ [ListPage cursor])) s).

(** [listAllTemplates(ctx, c.client)] *)
Definition callAll
    (listAll : World → list T * option error * World)
    s : list T * option error * State World T :=
  let '(nodes, e, w) := listAll (world (client s)) in
  (nodes, e, set_client (mkClient w (calls (client s) ++ [ListAll])) s).

(** [for _, node := range nodes { v := node.X; c.x[key(v)] = &v }] *)
Fixpoint mergeNodes c (nodes : list T) s : option (State World T) :=
  match nodes with
  | [] => Some s
  | v :: rest =>
      let '(p, h) := new v (heap s) in
      m ← mapAssign (key c v) p (items s);
      mergeNodes c rest (set_items m (set_heap h s))
  end.

(** How one turn of the page loop ends. *)
Inductive Ctl : Type :=
  | Continue (cursor : option string)   (* cursor = &EndCursor *)
  | Break                               (* !HasNextPage *)
  | Return.                             (* err != nil *)

(** The body of [for { ... }] in [ensureLabels], [ensureWorkflowStates]
    and [ensureTeams]. *)
Definition pageStep c listPage (cursor : option string) s
  : option (Ctl * State World T) :=
  let '(resp, e, s1) := callPage listPage cursor s in
  match e with
  | Some e' => Some (Return, set_err (Some e') s1)
  | None =>
      s2 ← mergeNodes c (Nodes resp) s1;
      if HasNextPage (PageInfoOf resp)
      then Some (Continue (Some (EndCursor (PageInfoOf resp))), s2)
      else Some (Break, s2)
  end.

Fixpoint pageLoop c listPage (fuel : nat) (cursor : option string) s
  : option (State World T) :=
  match fuel with
  | 0 => None
  | S fuel' =>
      '(ctl, s') ← pageStep c listPage cursor s;
      match ctl with
      | Continue cursor' => pageLoop c listPage fuel' cursor' s'
      | Break | Return => Some s'
      end
  end.

(** The body of [ensureTemplates]: one request, and the map is made only
    once it has succeeded. *)
Definition wholeList c listAll s : option (State World T) :=
  let '(nodes, e, s1) := callAll listAll s in
  match e with
  | Some e' => Some (set_err (Some e') s1)
  | None => mergeNodes c nodes (set_items (Some ∅) s1)
  end.

(** The function passed to [c.xOnce.Do]. *)
Definition populate c (fuel : nat) s : option (State World T) :=
  match fetch c with
  | Paged listPage =>
      pageLoop c listPage fuel None (set_items (Some ∅) s)
  | Whole listAll => wholeList c listAll s
  end.

(** [sync.Once.Do], one caller at a time. *)
Definition Do (f : State World T → option (State World T)) s
  : option (State World T) :=
  if once s then Some s
  else s' ← f s; Some (set_once true s').

Definition ensure c (fuel : nat) s : option (State World T) :=
  Do (populate c fuel) s.

(** [fmt.Errorf("x not found in bulk cache: %s", k)] *)
Definition notFound c (k : string) : error :=
  Errorf (noun c +:+ " not found in bulk cache: " +:+ k).

(** What a lookup does once [ensure] has returned. *)
Definition serve c (k : string) s : ptr * option error :=
  match err s with
  | Some e => (NilPtr, Some e)
  | None =>
      match mapIndex (items s) k with
      | None => (NilPtr, Some (notFound c k))
      | Some p => (p, None)
      end
  end.

(** [GetLabel], [GetWorkflowState], [GetTemplate], [GetTeamByKey] *)
Definition GetByKey c (fuel : nat) (k : string) s
  : option ((ptr * option error) * State World T) :=
  s' ← ensure c fuel s;
  Some (serve c k s', s').

End Cache.


(** ** The scan of the workflow states by owning team *)

(** Go leaves the iteration order of [range] over a map unspecified; it is
    an arbitrary rearrangement of the entries, chosen anew at each loop. *)
Record MapOrder : Type := mkMapOrder {
  arrange : list (string * ptr) → list (string * ptr);
  arrange_perm : ∀ l, arrange l ≡ₚ l
}.

Definition mapRange (o : MapOrder) (m : option (gmap string ptr))
  : list (string * ptr) :=
  match m with
  | None => []
  | Some g => arrange o (map_to_list g)
  end.

(** A slice [[]T] is the list of the addresses of its elements; the nil
    slice is the empty list.  [append(sl, v)] copies [v] into a cell that
    nothing else refers to. *)
Definition append {T} (sl : list nat) (v : T) (h : list T)
  : list nat * list T :=
  (sl ++ [length h], h ++ [v]).

(** The elements of a slice, as the caller reads them. *)
Definition readSlice {T} (sl : list nat) (h : list T) : option (list T) :=
  mapM (λ a, h !! a) sl.

(** [sl[i] = v] by the caller; [None] is the index-out-of-range panic. *)
Definition sliceStore {T} (sl : list nat) (i : nat) (v : T) (h : list T)
  : option (list T) :=
  a ← sl !! i; Some (<[a := v]> h).

(** Any number of element assignments, in order. *)
Fixpoint sliceStores {T} (sl : list nat) (ws : list (nat * T)) (h : list T)
  : option (list T) :=
  match ws with
  | [] => Some h
  | (i, v) :: rest => h' ← sliceStore sl i v h; sliceStores sl rest h'
  end.

(** [ws.Team.Id] *)
Definition teamOf (ws : WorkflowState) : string :=
  WorkflowStateTeam_Id (WorkflowState_Team ws).

(** The records that the pointers of map entries designate. *)
Definition pointees {T} (h : list T) (entries : list (string * ptr)) : list T :=
  omap (λ e, deref e.2 h) entries.

Section WorkflowStates.
Context {World : Type}.
Implicit Types (s : State World WorkflowState).

(** [for _, ws := range c.workflowStates {
       if ws.Team.Id == teamID { result = append(result, *ws) } }] *)
Fixpoint scanTeam (teamID : string) (entries : list (string * ptr))
    (result : list nat) (h : list WorkflowState)
  : option (list nat * list WorkflowState) :=
  match entries with
  | [] => Some (result, h)
  | (_, p) :: rest =>
      ws ← deref p h;
      if String.eqb (teamOf ws) teamID
      then let '(result', h') := append result ws h in
           scanTeam teamID rest result' h'
      else scanTeam teamID rest result h
  end.

Definition GetWorkflowStatesByTeamID_in (c : Category World WorkflowState)
    (fuel : nat) (o : MapOrder) (teamID : string) s
  : option ((list nat * option error) * State World WorkflowState) :=
  s' ← ensure c fuel s;
  match err s' with
  | Some e => Some (([], Some e), s')
  | None =>
      '(result, h) ← scanTeam teamID (mapRange o (items s')) [] (heap s');
      Some ((result, None), set_heap h s')
  end.

End WorkflowStates.

(** ** The four categories of [BulkCache] *)

Section Provider.
Context {World : Type}.
Variable listAllLabelsPage :
  option string → World → Connection IssueLabel * option error * World.
Variable listAllWorkflowStatesPage :
  option string → World → Connection WorkflowState * option error * World.
Variable listAllTemplates :
  World → list Template * option error * World.
Variable listAllTeamsPage :
  option string → World → Connection Team * option error * World.

Definition labelsCategory : Category World IssueLabel :=
  mkCategory IssueLabel_Id (Paged listAllLabelsPage) "label".
Definition workflowStatesCategory : Category World WorkflowState :=
  mkCategory WorkflowState_Id (Paged listAllWorkflowStatesPage) "workflow state".
Definition templatesCategory : Category World Template :=
  mkCategory Template_Id (Whole listAllTemplates) "template".
Definition teamsCategory : Category World Team :=
  mkCategory Team_Key (Paged listAllTeamsPage) "team".

Definition ensureLabels := ensure labelsCategory.
Definition GetLabel := GetByKey labelsCategory.
Definition ensureWorkflowStates := ensure workflowStatesCategory.
Definition GetWorkflowState := GetByKey workflowStatesCategory.
Definition GetWorkflowStatesByTeamID :=
  GetWorkflowStatesByTeamID_in workflowStatesCategory.
Definition ensureTemplates := ensure templatesCategory.
Definition GetTemplate := GetByKey templatesCategory.
Definition ensureTeams := ensure teamsCategory.
Definition GetTeamByKey := GetByKey teamsCategory.

End Provider.

(** ** What the remote serves *)

Section Dataset.
Context {World T : Type}.

(** The remote, asked page after page from [cursor] on, each request
    carrying the end cursor of the page before, answers with the pages
    [conns] and then either ends the listing ([None]) or fails. *)
Inductive Served
    (listPage : option string → World → Connection T * option error * World)
  : option string → World → list (Connection T) → option error → World → Prop :=
  | Served_fail cursor w resp e w' :
      listPage cursor w = (resp, Some e, w') →
      Served listPage cursor w [] (Some e) w'
  | Served_last cursor w resp w' :
      listPage cursor w = (resp, None, w') →
      HasNextPage (PageInfoOf resp) = false →
      Served listPage cursor w [resp] None w'
  | Served_more cursor w resp w' rest o w'' :
      listPage cursor w = (resp, None, w') →
      HasNextPage (PageInfoOf resp) = true →
      Served listPage (Some (EndCursor (PageInfoOf resp))) w' rest o w'' →
      Served listPage cursor w (resp :: rest) o w''.

(** The cursors of the requests that follow the pages [conns]. *)
Definition cursorsAfter (conns : list (Connection T)) : list (option string) :=
  (λ r, Some (EndCursor (PageInfoOf r))) <$> conns.

(** The requests of such a listing: the first carries [cursor], each
    further one the end cursor of the page before it; there is one request
    per page served and one more for the request that failed. *)
Definition requests (cursor : option string) (conns : list (Connection T))
    (o : option error) : list Request :=
  ListPage <$> take (length conns + (if o is Some _ then 1 else 0))
                    (cursor :: cursorsAfter conns).

(** A category's list operation: the requests it sends, the pages of
    records it yields, and how the listing ends. *)
Inductive Fetched
  : Fetch World T → World → list Request → list (list T) → option error →
    World → Prop :=
  | Fetched_paged listPage w conns o w' :
      Served listPage None w conns o w' →
      Fetched (Paged listPage) w (requests None conns o) (Nodes <$> conns) o w'
  | Fetched_whole listAll w nodes w' :
      listAll w = (nodes, None, w') →
      Fetched (Whole listAll) w [ListAll] [nodes] None w'
  | Fetched_whole_fail listAll w nodes e w' :
      listAll w = (nodes, Some e, w') →
      Fetched (Whole listAll) w [ListAll] [] (Some e) w'.

(** The record of a dataset that a key designates: the last one carrying
    the key. *)
Definition lastWith (c : Category World T) (k : string) (recs : list T)
  : option T :=
  last (filter (λ v, key c v = k) recs).

(** The records a state caches, by key. *)
Definition cached (s : State World T) : gmap string T :=
  omap (λ p, deref p (heap s)) (default ∅ (items s)).

(** The map that merging [recs] into [g] builds when the first record is
    copied to address [a], the next to [a + 1], and so on. *)
Fixpoint insertAll (c : Category World T) (a : nat) (recs : list T)
    (g : gmap string ptr) : gmap string ptr :=
  match recs with
  | [] => g
  | v :: rest => insertAll c (S a) rest (<[key c v := Ptr a]> g)
  end.

(** The state a category is left in by the one run of its populate
    routine that started from [newBulkCache cl h] and exchanged [reqs] for
    [pages], ending with [o].  Only [ensureTemplates] creates the map after
    the request, so only there a failure leaves the nil map. *)
Definition terminal (c : Category World T) (cl : Client World) (h : list T)
    (reqs : list Request) (pages : list (list T)) (o : option error)
    (w' : World) : State World T :=
  mkState (mkClient w' (calls cl ++ reqs))
          (h ++ concat pages)
          true
          (match fetch c, o with
           | Whole _, Some _ => None
           | _, _ => Some (insertAll c (length h) (concat pages) ∅)
           end)
          o.

(** Exactly one of the two results of a lookup is nil. *)
Definition exactlyOne (r : ptr * option error) : Prop :=
  (r.1 ≠ NilPtr ∧ r.2 = None) ∨ (r.1 = NilPtr ∧ r.2 ≠ None).

End Dataset.

(** ** What the scan selects *)

Section Selected.
Context {World : Type}.
Implicit Types (c : Category World WorkflowState).
Implicit Types (cl : Client World) (h : list WorkflowState).
Implicit Types (pages : list (list WorkflowState)).
Implicit Types (entries : list (string * ptr)).

(** Every pointer of the entries designates a cell of [h]. *)
Definition validIn h entries : Prop :=
  ∀ k p, (k, p) ∈ entries → ∃ a, p = Ptr a ∧ a < length h.

(** The records the scan selects from a populated category, in the order
    [ord] of the map iteration. *)
Definition selected c cl h reqs pages w' ord teamID : list WorkflowState :=
  filter (λ ws, teamOf ws = teamID)
    (pointees (heap (terminal c cl h reqs pages None w'))
              (mapRange ord (items (terminal c cl h reqs pages None w')))).

End Selected.

(** ** Concurrent callers

    [N] goroutines call a lookup of one category on the same [BulkCache].
    [sync.Once] is Go's:
<<
    func (o *Once) Do(f func()) {
        if o.done.Load() == 0 { o.doSlow(f) }
    }
    func (o *Once) doSlow(f func()) {
        o.m.Lock()
        defer o.m.Unlock()
        if o.done.Load() == 0 {
            defer o.done.Store(1)
            f()
        }
    }
>>
    The goroutines interleave at the granularity of the program points
    below; an execution is any sequence of steps of any of them (sequential
    consistency, which Go grants to programs whose shared accesses are
    ordered by atomics and mutexes as these are).  The mutex records its
    holder. *)

Inductive PC : Type :=
  | Enter                           (* GetX: about to call ensureX *)
  | Lock                            (* doSlow: o.m.Lock() *)
  | Recheck                         (* doSlow: o.done.Load() == 0 ? *)
  | Begin                           (* f: its first statement *)
  | Page (cursor : option string)   (* f: the head of the page loop *)
  | Finish                          (* deferred o.done.Store(1) *)
  | Unlock                          (* deferred o.m.Unlock() *)
  | Serve                           (* GetX, after ensureX returned *)
  | Done (r : ptr * option error).  (* GetX returned r *)

Record Config (World T : Type) : Type := mkConfig {
  shared : State World T;
  mu : option nat;
  threads : list (string * PC)
}.
Arguments mkConfig {World T} _ _ _.
Arguments shared {World T} _.
Arguments mu {World T} _.
Arguments threads {World T} _.

Section Concurrent.
Context {World T : Type}.
Implicit Types (s : State World T) (c : Category World T).
Implicit Types (cfg : Config World T).

(** One step of goroutine [i], which looks up [k] and stands at [pc]. *)
Definition threadStep c (i : nat) (k : string) (pc : PC) s (m : option nat)
  : option (PC * State World T * option nat) :=
  match pc with
  | Enter => Some (if once s then Serve else Lock, s, m)
  | Lock =>
      match m with
      | None => Some (Recheck, s, Some i)
      | Some _ => None
      end
  | Recheck => Some (if once s then Unlock else Begin, s, m)
  | Begin =>
      match fetch c with
      | Paged _ => Some (Page None, set_items (Some ∅) s, m)
      | Whole listAll => s' ← wholeList c listAll s; Some (Finish, s', m)
      end
  | Page cursor =>
      match fetch c with
      | Paged listPage =>
          '(ctl, s') ← pageStep c listPage cursor s;
          Some (match ctl with
                | Continue cursor' => Page cursor'
                | Break | Return => Finish
                end, s', m)
      | Whole _ => None
      end
  | Finish => Some (Unlock, set_once true s, m)
  | Unlock => Some (Serve, s, None)
  | Serve => Some (Done (serve c k s), s, m)
  | Done _ => None
  end.

(** The scheduler lets goroutine [i] take a step; [None] when [i] is
    blocked on the mutex, has returned, or does not exist. *)
Definition step c (i : nat) cfg : option (Config World T) :=
  '(k, pc) ← threads cfg !! i;
  '(pc', s', m') ← threadStep c i k pc (shared cfg) (mu cfg);
  Some (mkConfig s' m' (<[i := (k, pc')]> (threads cfg))).

Definition Step c cfg cfg' : Prop := ∃ i, step c i cfg = Some cfg'.

(** A whole schedule. *)
Fixpoint run c (schedule : list nat) cfg : option (Config World T) :=
  match schedule with
  | [] => Some cfg
  | i :: rest => cfg' ← step c i cfg; run c rest cfg'
  end.

(** [N] lookups, of the keys [ks], are about to start on a new cache. *)
Definition initial (cl : Client World) (h : list T) (ks : list string)
  : Config World T :=
  mkConfig (newBulkCache cl h) None ((λ k, (k, Enter)) <$> ks).

(** The caller is past [ensureX]. *)
Definition pastGate (pc : PC) : bool :=
  match pc with
  | Serve | Done _ => true
  | _ => false
  end.

(** The caller holds the mutex of the gate. *)
Definition isInside (pc : PC) : bool :=
  match pc with
  | Recheck | Begin | Page _ | Finish | Unlock => true
  | _ => false
  end.

(** The caller has returned from [GetX]. *)
Definition returned (pc : PC) : bool :=
  match pc with
  | Done _ => true
  | _ => false
  end.

(** A bound on the steps a caller at [pc] still takes, when the populate
    routine still has [rem] of its [len] requests to send. *)
Definition rank (len rem : nat) (pc : PC) : nat :=
  match pc with
  | Enter => 7 + len
  | Lock => 6 + len
  | Recheck => 5 + len
  | Begin => 4 + len
  | Page _ => 3 + rem
  | Finish => 3
  | Unlock => 2
  | Serve => 1
  | Done _ => 0
  end.

(** The steps an execution still takes at most. *)
Definition measure (total len : nat) cfg : nat :=
  sum_list_with
    (λ t, rank len (total - length (calls (client (shared cfg)))) t.2)
    (threads cfg).

(** What holds of the shared state while a caller stands at [pc], in an
    execution that starts from the state [F] and whose populate routine
    leads to the state [Tm]. *)
Definition pcOk c (F Tm : State World T) s (k : string) (pc : PC) : Prop :=
  match pc with
  | Enter | Lock => True
  | Recheck => once s = false → s = F
  | Begin => s = F
  | Page cursor =>
      once s = false ∧
      ∃ listPage n s',
        fetch c = Paged listPage ∧
        pageLoop c listPage n cursor s = Some s' ∧ set_once true s' = Tm
  | Finish => once s = false ∧ set_once true s = Tm
  | Unlock | Serve => once s = true
  | Done r => once s = true ∧ r = serve c k Tm
  end.

(** The invariant of such an execution. *)
Definition Inv c (F Tm : State World T) cfg : Prop :=
  (once (shared cfg) = true → shared cfg = Tm) ∧
  (mu cfg = None → once (shared cfg) = false → shared cfg = F) ∧
  (∀ j, mu cfg = Some j →
        ∃ k pc, threads cfg !! j = Some (k, pc) ∧ isInside pc = true) ∧
  (∀ j k pc, threads cfg !! j = Some (k, pc) →
             (isInside pc = true → mu cfg = Some j) ∧
             pcOk c F Tm (shared cfg) k pc).

End Concurrent.

(** ** Example remotes

    Small remotes of the kind a test injects.  Their world is the number
    of requests they have answered. *)

Module Mock.

Definition bug : IssueLabel := mkIssueLabel "L1" "bug".
Definition feature : IssueLabel := mkIssueLabel "L2" "feature".
Definition chore : IssueLabel := mkIssueLabel "L3" "chore".
Definition docs : IssueLabel := mkIssueLabel "L4" "docs".
Definition bug2 : IssueLabel := mkIssueLabel "L1" "bug (renamed)".

Definition failed {T} (detail : string) (w : nat)
  : Connection T * option error * nat :=
  (mkConnection [] (mkPageInfo false ""), Some (RemoteError detail), S w).

(** Three pages of labels, chained by the cursors A and B. *)
Definition labelPage1 := mkConnection [bug; feature] (mkPageInfo true "A").
Definition labelPage2 := mkConnection [chore] (mkPageInfo true "B").
Definition labelPage3 := mkConnection [docs] (mkPageInfo false "C").

Definition labels3 (cursor : option string) (w : nat)
  : Connection IssueLabel * option error * nat :=
  match cursor with
  | None => (labelPage1, None, S w)
  | Some "A" => (labelPage2, None, S w)
  | Some "B" => (labelPage3, None, S w)
  | Some _ => failed "unknown cursor" w
  end.

(** The same listing with a gateway error in place of the second page. *)
Definition labelsFlaky (cursor : option string) (w : nat)
  : Connection IssueLabel * option error * nat :=
  match cursor with
  | None => (labelPage1, None, S w)
  | Some _ => failed "502 Bad Gateway" w
  end.

(** Two pages, the identifier L1 on both. *)
Definition labelPageDup := mkConnection [chore; bug2] (mkPageInfo false "B").

Definition labelsDup (cursor : option string) (w : nat)
  : Connection IssueLabel * option error * nat :=
  match cursor with
  | None => (labelPage1, None, S w)
  | Some "A" => (labelPageDup, None, S w)
  | Some _ => failed "unknown cursor" w
  end.

(** A category without records. *)
Definition labelsNone (cursor : option string) (w : nat)
  : Connection IssueLabel * option error * nat :=
  (mkConnection [] (mkPageInfo false ""), None, S w).

(** Workflow states owned by the teams T1, T1 and T2. *)
Definition todo : WorkflowState :=
  mkWorkflowState "S1" "Todo" (mkWorkflowStateTeam "T1").
Definition doing : WorkflowState :=
  mkWorkflowState "S2" "In Progress" (mkWorkflowStateTeam "T1").
Definition backlog : WorkflowState :=
  mkWorkflowState "S3" "Backlog" (mkWorkflowStateTeam "T2").
Definition scratched : WorkflowState :=
  mkWorkflowState "S1" "overwritten by the caller" (mkWorkflowStateTeam "T9").

Definition statePage1 := mkConnection [todo; backlog] (mkPageInfo true "A").
Definition statePage2 := mkConnection [doing] (mkPageInfo false "B").

Definition states3 (cursor : option string) (w : nat)
  : Connection WorkflowState * option error * nat :=
  match cursor with
  | None => (statePage1, None, S w)
  | Some "A" => (statePage2, None, S w)
  | Some _ => failed "unknown cursor" w
  end.

Definition statesDown (cursor : option string) (w : nat)
  : Connection WorkflowState * option error * nat :=
  failed "connection refused" w.

(** Templates come in one request. *)
Definition report : Template := mkTemplate "TPL1" "Bug report".
Definition rfc : Template := mkTemplate "TPL2" "RFC".

Definition templates2 (w : nat) : list Template * option error * nat :=
  ([report; rfc], None, S w).

Definition templatesDown (w : nat) : list Template * option error * nat :=
  ([], Some (RemoteError "connection refused"), S w).

(** Teams; in [teamsClash] two teams carry the key ENG. *)
Definition eng : Team := mkTeam "T1" "ENG" "Engineering".
Definition ops : Team := mkTeam "T2" "OPS" "Operations".
Definition eng2 : Team := mkTeam "T3" "ENG" "Engines".

Definition teams2 (cursor : option string) (w : nat)
  : Connection Team * option error * nat :=
  match cursor with
  | None => (mkConnection [eng] (mkPageInfo true "A"), None, S w)
  | Some "A" => (mkConnection [ops] (mkPageInfo false "B"), None, S w)
  | Some _ => failed "unknown cursor" w
  end.

Definition teamsClash (cursor : option string) (w : nat)
  : Connection Team * option error * nat :=
  match cursor with
  | None => (mkConnection [eng; ops; eng2] (mkPageInfo false "A"), None, S w)
  | Some _ => failed "unknown cursor" w
  end.

(** A client handle that has not been used. *)
Definition fresh : Client nat := mkClient 0 [].

(** Three goroutines look up labels on a new cache.  In [schedule] the
    second of them wins the race for the gate while the others are already
    waiting at it. *)
Definition racers : list string := ["L1"; "L9"; "L3"].

Definition schedule : list nat :=
  [0; 1; 1; 2; 1; 1; 1; 1; 1; 1; 1; 0; 0; 0; 2; 2; 2; 0; 1; 2].

(** Map iteration in the order the entries are stored, and in the
    opposite order. *)
Definition inOrder : MapOrder := mkMapOrder id (λ l, reflexivity l).
Definition backwards : MapOrder := mkMapOrder reverse reverse_Permutation.

End Mock.

(** ** Callers of the lookups *)

(** [*p = v] by a caller that holds [p]; [None] is the panic on a nil
    pointer (and stands for an address that was never allocated). *)
Definition ptrStore {T} (p : ptr) (v : T) (h : list T) : option (list T) :=
  match p with
  | NilPtr => None
  | Ptr a => if decide (a < length h) then Some (<[a := v]> h) else None
  end.

(** A call on the workflow states: [GetWorkflowState(id)] or
    [GetWorkflowStatesByTeamID(teamID)], the latter with the order in which
    its [range] happens to visit the map. *)
Inductive WsCall : Type :=
  | ById (id : string)
  | ByTeam (o : MapOrder) (teamID : string).

Section Sequences.
Context {World T : Type}.
Implicit Types (s : State World T) (c : Category World T).

(** [GetX(k1); GetX(k2); ...], one call after the other. *)
Fixpoint lookups c (fuel : nat) (ks : list string) s
  : option (list (ptr * option error) * State World T) :=
  match ks with
  | [] => Some ([], s)
  | k :: rest =>
      '(r, s1) ← GetByKey c fuel k s;
      '(rs, s2) ← lookups c fuel rest s1;
      Some (r :: rs, s2)
  end.

End Sequences.

Section WorkflowStateCalls.
Context {World : Type}.
Implicit Types (s : State World WorkflowState).
Implicit Types (c : Category World WorkflowState).

Definition wsCall c (fuel : nat) (op : WsCall) s
  : option (((ptr * option error) + (list nat * option error)) *
            State World WorkflowState) :=
  match op with
  | ById id => '(r, s') ← GetByKey c fuel id s; Some (inl r, s')
  | ByTeam o teamID =>
      '(r, s') ← GetWorkflowStatesByTeamID_in c fuel o teamID s;
      Some (inr r, s')
  end.

(** Calls on the workflow states, one after the other. *)
Fixpoint wsCalls c (fuel : nat) (ops : list WsCall) s
  : option (list ((ptr * option error) + (list nat * option error)) *
            State World WorkflowState) :=
  match ops with
  | [] => Some ([], s)
  | op :: rest =>
      '(r, s1) ← wsCall c fuel op s;
      '(rs, s2) ← wsCalls c fuel rest s1;
      Some (r :: rs, s2)
  end.

(** What the call [op] returns on a cache whose gate has fired and whose
    gate, map, error slot and cells are those of [s]; [hp] is the heap in
    which the caller reads the slice it got. *)
Definition wsExpected c s (hp : list WorkflowState)
    (op : WsCall) (r : (ptr * option error) + (list nat * option error))
  : Prop :=
  match op, r with
  | ById id, inl r' => r' = serve c id s
  | ByTeam o teamID, inr (sl, e) =>
      e = err s ∧
      readSlice sl hp
      = Some (filter (λ ws, teamOf ws = teamID)
                     (pointees (heap s) (mapRange o (items s))))
  | _, _ => False
  end.

End WorkflowStateCalls.

(** ** The struct [BulkCache] as a whole *)

(** The cells of the four record types. *)
Record Memory : Type := mkMemory {
  labelCells : list IssueLabel;
  stateCells : list WorkflowState;
  templateCells : list Template;
  teamCells : list Team
}.

(** [type BulkCache struct], field by field. *)
Record BulkCache (World : Type) : Type := mkBulkCache {
  bc_client : Client World;

  labelsOnce : bool;
  labels : option (gmap string ptr);
  labelsErr : option error;

  workflowStatesOnce : bool;
  workflowStates : option (gmap string ptr);
  workflowStatesErr : option error;

  templatesOnce : bool;
  templates : option (gmap string ptr);
  templatesErr : option error;

  teamsOnce : bool;
  teamsByKey : option (gmap string ptr);
  teamsErr : option error
}.
Arguments mkBulkCache {World} _ _ _ _ _ _ _ _ _ _ _ _ _.
Arguments bc_client {World} _.
Arguments labelsOnce {World} _.
Arguments labels {World} _.
Arguments labelsErr {World} _.
Arguments workflowStatesOnce {World} _.
Arguments workflowStates {World} _.
Arguments workflowStatesErr {World} _.
Arguments templatesOnce {World} _.
Arguments templates {World} _.
Arguments templatesErr {World} _.
Arguments teamsOnce {World} _.
Arguments teamsByKey {World} _.
Arguments teamsErr {World} _.

(** How the methods of one category see the struct and the memory, and
    how what they leave is written back. *)
Record Lens (World T : Type) : Type := mkLens {
  focus : Memory * BulkCache World → State World T;
  restore : State World T → Memory * BulkCache World → Memory * BulkCache World
}.
Arguments mkLens {World T} _ _.
Arguments focus {World T} _ _.
Arguments restore {World T} _ _ _.

Section Struct.
Context {World : Type}.
Implicit Types (m : Memory) (b : BulkCache World).

(** [newBulkCache(client)] *)
Definition BulkCache_new (cl : Client World) : BulkCache World :=
  mkBulkCache cl false None None false None None false None None
              false None None.

Definition labelsLens : Lens World IssueLabel :=
  mkLens
    (λ '(m, b), mkState (bc_client b) (labelCells m)
                        (labelsOnce b) (labels b) (labelsErr b))
    (λ s '(m, b),
       (mkMemory (heap s) (stateCells m) (templateCells m) (teamCells m),
        mkBulkCache (client s)
          (once s) (items s) (err s)
          (workflowStatesOnce b) (workflowStates b) (workflowStatesErr b)
          (templatesOnce b) (templates b) (templatesErr b)
          (teamsOnce b) (teamsByKey b) (teamsErr b))).

Definition workflowStatesLens : Lens World WorkflowState :=
  mkLens
    (λ '(m, b), mkState (bc_client b) (stateCells m)
                        (workflowStatesOnce b) (workflowStates b)
                        (workflowStatesErr b))
    (λ s '(m, b),
       (mkMemory (labelCells m) (heap s) (templateCells m) (teamCells m),
        mkBulkCache (client s)
          (labelsOnce b) (labels b) (labelsErr b)
          (once s) (items s) (err s)
          (templatesOnce b) (templates b) (templatesErr b)
          (teamsOnce b) (teamsByKey b) (teamsErr b))).

Definition templatesLens : Lens World Template :=
  mkLens
    (λ '(m, b), mkState (bc_client b) (templateCells m)
                        (templatesOnce b) (templates b) (templatesErr b))
    (λ s '(m, b),
       (mkMemory (labelCells m) (stateCells m) (heap s) (teamCells m),
        mkBulkCache (client s)
          (labelsOnce b) (labels b) (labelsErr b)
          (workflowStatesOnce b) (workflowStates b) (workflowStatesErr b)
          (once s) (items s) (err s)
          (teamsOnce b) (teamsByKey b) (teamsErr b))).

Definition teamsLens : Lens World Team :=
  mkLens
    (λ '(m, b), mkState (bc_client b) (teamCells m)
                        (teamsOnce b) (teamsByKey b) (teamsErr b))
    (λ s '(m, b),
       (mkMemory (labelCells m) (stateCells m) (templateCells m) (heap s),
        mkBulkCache (client s)
          (labelsOnce b) (labels b) (labelsErr b)
          (workflowStatesOnce b) (workflowStates b) (workflowStatesErr b)
          (templatesOnce b) (templates b) (templatesErr b)
          (once s) (items s) (err s))).

(** A method of one category, run on the struct. *)
Definition onCategory {T A} (L : Lens World T)
    (f : State World T → option (A * State World T))
    (mb : Memory * BulkCache World)
  : option (A * (Memory * BulkCache World)) :=
  '(r, s) ← f (focus L mb); Some (r, restore L s mb).

Variable listAllLabelsPage :
  option string → World → Connection IssueLabel * option error * World.
Variable listAllWorkflowStatesPage :
  option string → World → Connection WorkflowState * option error * World.
Variable listAllTemplates :
  World → list Template * option error * World.
Variable listAllTeamsPage :
  option string → World → Connection Team * option error * World.

(** [func (c *BulkCache) GetLabel] and its siblings. *)
Definition BulkCache_GetLabel (fuel : nat) (id : string) :=
  onCategory labelsLens (GetLabel listAllLabelsPage fuel id).
Definition BulkCache_GetWorkflowState (fuel : nat) (id : string) :=
  onCategory workflowStatesLens
    (GetWorkflowState listAllWorkflowStatesPage fuel id).
Definition BulkCache_GetWorkflowStatesByTeamID (fuel : nat) (o : MapOrder)
    (teamID : string) :=
  onCategory workflowStatesLens
    (GetWorkflowStatesByTeamID listAllWorkflowStatesPage fuel o teamID).
Definition BulkCache_GetTemplate (fuel : nat) (id : string) :=
  onCategory templatesLens (GetTemplate listAllTemplates fuel id).
Definition BulkCache_GetTeamByKey (fuel : nat) (k : string) :=
  onCategory teamsLens (GetTeamByKey listAllTeamsPage fuel k).

End Struct.

Section LensLaws.
Context {World TA TB : Type}.

(** [LA] and [LB] are the views of two different categories of the
    struct: each reads back what was written through it, writing back what
    was read changes nothing, and what is written through one shows in the
    other only as the client handle, which the categories share. *)
Definition Separate (LA : Lens World TA) (LB : Lens World TB) : Prop :=
  (∀ s mb, focus LA (restore LA s mb) = s) ∧
  (∀ s mb, focus LB (restore LB s mb) = s) ∧
  (∀ mb, restore LA (focus LA mb) mb = mb) ∧
  (∀ mb, restore LB (focus LB mb) mb = mb) ∧
  (∀ s mb, focus LB (restore LA s mb) = set_client (client s) (focus LB mb)) ∧
  (∀ s mb, focus LA (restore LB s mb) = set_client (client s) (focus LA mb)) ∧
  (∀ cl m, focus LA (m, BulkCache_new cl)
           = newBulkCache cl (heap (focus LA (m, BulkCache_new cl)))) ∧
  (∀ cl m, focus LB (m, BulkCache_new cl)
           = newBulkCache cl (heap (focus LB (m, BulkCache_new cl)))).

End LensLaws.

(** ** The diagnostic trace

    [tflog.Debug(ctx, msg)] appends [msg] to the log of the process. *)

(** [len(m)]; the length of a nil map is 0. *)
Definition mapLen (m : option (gmap string ptr)) : nat :=
  match m with
  | None => 0
  | Some g => size g
  end.

(** ["bulk fetching all X"] *)
Definition fetchingMsg (plural : string) : string :=
  "bulk fetching all " +:+ plural.

(** [fmt.Sprintf("bulk fetched %d X", n)] *)
Definition fetchedMsg (n : nat) (plural : string) : string :=
  "bulk fetched " +:+ pretty n +:+ " " +:+ plural.

Section Traced.
Context {World T : Type}.
Implicit Types (s : State World T) (c : Category World T).
Implicit Types (log : list string).

(** The page loop, telling how it was left: by [break], after which the
    function goes on to its last statement, or by [return]. *)
Fixpoint pageLoopCtl c listPage (fuel : nat) (cursor : option string) s
  : option (Ctl * State World T) :=
  match fuel with
  | 0 => None
  | S fuel' =>
      '(ctl, s') ← pageStep c listPage cursor s;
      match ctl with
      | Continue cursor' => pageLoopCtl c listPage fuel' cursor' s'
      | Break | Return => Some (ctl, s')
      end
  end.

(** The function passed to [c.xOnce.Do], with its calls of [tflog.Debug];
    [plural] is the name of the category in the messages. *)
Definition populateTraced c (plural : string) (fuel : nat) s log
  : option (State World T * list string) :=
  let log1 := log ++ [fetchingMsg plural] in
  match fetch c with
  | Paged listPage =>
      '(ctl, s') ← pageLoopCtl c listPage fuel None (set_items (Some ∅) s);
      match ctl with
      | Return => Some (s', log1)
      | _ => Some (s', log1 ++ [fetchedMsg (mapLen (items s')) plural])
      end
  | Whole listAll =>
      let '(nodes, e, s1) := callAll listAll s in
      match e with
      | Some e' => Some (set_err (Some e') s1, log1)
      | None =>
          s2 ← mergeNodes c nodes (set_items (Some ∅) s1);
          Some (s2, log1 ++ [fetchedMsg (mapLen (items s2)) plural])
      end
  end.

Definition ensureTraced c (plural : string) (fuel : nat) s log
  : option (State World T * list string) :=
  if once s then Some (s, log)
  else '(s', log') ← populateTraced c plural fuel s log;
       Some (set_once true s', log').

Definition GetByKeyTraced c (plural : string) (fuel : nat) (k : string) s log
  : option ((ptr * option error) * State World T * list string) :=
  '(s', log') ← ensureTraced c plural fuel s log;
  Some (serve c k s', s', log').

End Traced.

Section TracedProvider.
Context {World : Type}.
Variable listAllLabelsPage :
  option string → World → Connection IssueLabel * option error * World.
Variable listAllWorkflowStatesPage :
  option string → World → Connection WorkflowState * option error * World.
Variable listAllTemplates :
  World → list Template * option error * World.
Variable listAllTeamsPage :
  option string → World → Connection Team * option error * World.

(** The four populate routines with the names their messages use. *)
Definition ensureLabelsTraced :=
  ensureTraced (labelsCategory listAllLabelsPage) "issue labels".
Definition ensureWorkflowStatesTraced :=
  ensureTraced (workflowStatesCategory listAllWorkflowStatesPage)
    "workflow states".
Definition ensureTemplatesTraced :=
  ensureTraced (templatesCategory listAllTemplates) "templates".
Definition ensureTeamsTraced :=
  ensureTraced (teamsCategory listAllTeamsPage) "teams".

End TracedProvider.

(** ** Further example remotes *)

Module MoreMock.

(** A remote whose every page announces a next one, under the same
    cursor. *)
Definition labelsEndless (cursor : option string) (w : nat)
  : Connection IssueLabel * option error * nat :=
  (mkConnection [Mock.bug] (mkPageInfo true "A"), None, S w).

(** No memory in use yet. *)
Definition noMemory : Memory := mkMemory [] [] [] [].

(** The labels are down, the teams are served: both listings through one
    endpoint, which tells them apart by the first request it gets. *)
Definition labelsDown (cursor : option string) (w : nat)
  : Connection IssueLabel * option error * nat :=
  Mock.failed "labels unavailable" w.

Definition teamsAfter (cursor : option string) (w : nat)
  : Connection Team * option error * nat :=
  match cursor with
  | None => (mkConnection [Mock.eng] (mkPageInfo true "A"), None, S w)
  | Some _ => (mkConnection [Mock.ops] (mkPageInfo false "B"), None, S w)
  end.

(** Calls on the workflow states, by identifier and by team, mixed. *)
Definition mixedCalls : list WsCall :=
  [ByTeam Mock.inOrder "T1"; ById "S1"; ByTeam Mock.backwards "T1";
   ById "S9"; ByTeam Mock.inOrder "T2"].

End MoreMock.

(** * The populate routine *)

Section PopulateTheory.
Context {World T : Type}.
Implicit Types (s : State World T) (c : Category World T).
Implicit Types (g : gmap string ptr) (recs : list T).

Lemma insertAll_app c a recs1 recs2 g :
  insertAll c a (recs1 ++ recs2) g
  = insertAll c (a + length recs1) recs2 (insertAll c a recs1 g).
Proof.
  revert a g. induction recs1 as [|v recs1 IH]; intros a g; simpl.
  - by rewrite Nat.add_0_r.
  - rewrite IH. f_equal. lia.
Qed.

Lemma insertAll_snoc c a recs v g :
  insertAll c a (recs ++ [v]) g
  = <[key c v := Ptr (a + length recs)]> (insertAll c a recs g).
Proof. by rewrite insertAll_app. Qed.

Lemma lastWith_snoc c k recs v :
  lastWith c k (recs ++ [v])
  = if decide (key c v = k) then Some v else lastWith c k recs.
Proof.
  unfold lastWith. rewrite filter_app, filter_cons, filter_nil.
  case_decide.
  - by rewrite last_snoc.
  - by rewrite app_nil_r.
Qed.

Lemma lastWith_app c k recs1 recs2 :
  lastWith c k (recs1 ++ recs2)
  = match lastWith c k recs2 with
    | Some r => Some r
    | None => lastWith c k recs1
    end.
Proof.
  induction recs2 as [|v recs2 IH] using rev_ind.
  - by rewrite app_nil_r.
  - rewrite app_assoc, !lastWith_snoc. by case_decide.
Qed.

Lemma lastWith_Some c k recs r :
  lastWith c k recs = Some r →
  key c r = k ∧ ∃ l1 l2, recs = l1 ++ r :: l2 ∧ ∀ x, x ∈ l2 → key c x ≠ k.
Proof.
  induction recs as [|v recs IH] using rev_ind; [done|].
  rewrite lastWith_snoc. case_decide as Hk.
  - intros [= ->]. split; [done|]. exists recs, []. split; [done|].
    intros x Hx. by apply elem_of_nil in Hx.
  - intros Hr. destruct (IH Hr) as (Hkey & l1 & l2 & -> & Hl2).
    split; [done|]. exists l1, (l2 ++ [v]). split.
    + by rewrite <-app_assoc.
    + intros x Hx. apply elem_of_app in Hx as [Hx|Hx]; [by apply Hl2|].
      apply list_elem_of_singleton in Hx. by subst x.
Qed.

Lemma lastWith_None c k recs :
  lastWith c k recs = None ↔ k ∉ key c <$> recs.
Proof.
  induction recs as [|v recs IH] using rev_ind.
  - split; [|done]. intros _ Hk. by apply elem_of_nil in Hk.
  - rewrite lastWith_snoc, fmap_app, elem_of_app. simpl.
    rewrite list_elem_of_singleton. case_decide as Hk.
    + split; [done|]. intros Hn. destruct Hn. by right.
    + rewrite IH. split.
      * intros Hn [?|?]; [done|]. by apply Hk.
      * intros Hn ?. apply Hn. by left.
Qed.

Lemma lastWith_is_Some c k recs :
  is_Some (lastWith c k recs) ↔ k ∈ key c <$> recs.
Proof.
  rewrite <-not_eq_None_Some, lastWith_None.
  split; [|by intros ? ?]. intros Hn.
  by destruct (decide (k ∈ key c <$> recs)).
Qed.

(** Where [insertAll] leaves a key: at the copy of the last record that
    carries it. *)
Lemma insertAll_lookup_last c a recs g k :
  match lastWith c k recs with
  | Some r =>
      ∃ i, recs !! i = Some r ∧
           insertAll c a recs g !! k = Some (Ptr (a + i)) ∧
           ∀ j x, recs !! j = Some x → key c x = k → j ≤ i
  | None => insertAll c a recs g !! k = g !! k
  end.
Proof.
  induction recs as [|v recs IH] using rev_ind; [done|].
  rewrite lastWith_snoc, insertAll_snoc. case_decide as Hk.
  - exists (length recs). split; [|split].
    + by rewrite lookup_app_r, Nat.sub_diag.
    + subst k. by rewrite lookup_insert_eq.
    + intros j x Hj _. apply lookup_lt_Some in Hj.
      rewrite length_app in Hj. simpl in Hj. lia.
  - rewrite lookup_insert_ne by done.
    destruct (lastWith c k recs) as [r|]; [|done].
    destruct IH as (i & Hi & Hg & Hlast). exists i. split; [|split; [done|]].
    + by apply lookup_app_l_Some.
    + intros j x Hj Hx. destruct (decide (j < length recs)) as [Hlt|Hge].
      * rewrite lookup_app_l in Hj by done. by eapply Hlast.
      * rewrite lookup_app_r in Hj by lia.
        apply list_lookup_singleton_Some in Hj as [_ <-]. done.
Qed.

Lemma insertAll_lookup c a recs g k :
  match lastWith c k recs with
  | Some r =>
      ∃ i, recs !! i = Some r ∧ insertAll c a recs g !! k = Some (Ptr (a + i))
  | None => insertAll c a recs g !! k = g !! k
  end.
Proof.
  pose proof (insertAll_lookup_last c a recs g k) as H.
  destruct (lastWith c k recs); [|done].
  destruct H as (i & ? & ? & _). by exists i.
Qed.

(** With pairwise distinct keys, each record is the one its key
    designates. *)
Lemma lastWith_NoDup c recs r :
  NoDup (key c <$> recs) → r ∈ recs → lastWith c (key c r) recs = Some r.
Proof.
  induction recs as [|v recs IH] using rev_ind.
  - intros _ Hr. by apply elem_of_nil in Hr.
  - rewrite fmap_app, lastWith_snoc. simpl. intros Hnd Hr.
    apply NoDup_app in Hnd as (Hnd & Hdisj & _).
    apply elem_of_app in Hr as [Hr|Hr].
    + case_decide as Hk; [|by apply IH].
      exfalso. apply (Hdisj (key c r)).
      * by apply list_elem_of_fmap_2.
      * rewrite Hk. apply list_elem_of_singleton. done.
    + apply list_elem_of_singleton in Hr. subst v. by rewrite decide_True.
Qed.

Lemma lastWith_last_occurrence c recs l1 r l2 :
  recs = l1 ++ r :: l2 → (∀ x, x ∈ l2 → key c x ≠ key c r) →
  lastWith c (key c r) recs = Some r.
Proof.
  intros -> Hl2. rewrite lastWith_app.
  replace (r :: l2) with ([r] ++ l2) by done. rewrite lastWith_app.
  assert (lastWith c (key c r) l2 = None) as ->.
  { apply lastWith_None. intros Hin.
    apply list_elem_of_fmap in Hin as (x & Hx & Hin). by eapply Hl2. }
  unfold lastWith. simpl. by rewrite filter_cons_True.
Qed.

Lemma insertAll_dom c a recs g :
  dom (insertAll c a recs g) = dom g ∪ list_to_set (key c <$> recs).
Proof.
  revert a g. induction recs as [|v recs IH]; intros a g; simpl.
  - by rewrite (right_id_L ∅ (∪)).
  - rewrite IH, dom_insert_L.
    rewrite (comm_L (∪) {[key c v]} (dom g)). by rewrite <-(assoc_L (∪)).
Qed.

Lemma insertAll_values c a recs g p k :
  insertAll c a recs g !! k = Some p →
  g !! k = Some p ∨ ∃ i, i < length recs ∧ p = Ptr (a + i).
Proof.
  pose proof (insertAll_lookup c a recs g k) as H.
  destruct (lastWith c k recs) as [r|].
  - destruct H as (i & Hi & ->). intros [= <-]. right. exists i.
    split; [|done]. by eapply lookup_lt_Some.
  - rewrite H. by left.
Qed.

Lemma mergeNodes_Some c nodes s g :
  items s = Some g →
  mergeNodes c nodes s
  = Some (mkState (client s) (heap s ++ nodes) (once s)
                  (Some (insertAll c (length (heap s)) nodes g)) (err s)).
Proof.
  revert s g. induction nodes as [|v nodes IH]; intros [cl h b m e] g; simpl.
  - intros ->. by rewrite app_nil_r.
  - intros ->. simpl. erewrite IH by done. simpl.
    rewrite length_app, <-app_assoc. simpl. by rewrite Nat.add_1_r.
Qed.

Lemma mergeNodes_nil_map c v nodes s :
  items s = None → mergeNodes c (v :: nodes) s = None.
Proof. intros H. simpl. by rewrite H. Qed.

Lemma requests_cons cursor (resp : Connection T) rest o :
  requests cursor (resp :: rest) o
  = ListPage cursor :: requests (Some (EndCursor (PageInfoOf resp))) rest o.
Proof. done. Qed.

Lemma requests_length cursor (conns : list (Connection T)) o :
  length (requests cursor conns o)
  = length conns + (if o is Some _ then 1 else 0).
Proof.
  unfold requests, cursorsAfter.
  rewrite length_fmap, length_take. simpl. rewrite length_fmap.
  destruct o; lia.
Qed.

(** The page loop against a remote that serves [conns]. *)
Lemma pageLoop_Served c listPage cursor s g conns o w' :
  Served listPage cursor (world (client s)) conns o w' →
  items s = Some g →
  ∀ fuel, length conns + (if o is Some _ then 1 else 0) ≤ fuel →
  pageLoop c listPage fuel cursor s
  = Some (mkState (mkClient w' (calls (client s) ++ requests cursor conns o))
                  (heap s ++ concat (Nodes <$> conns)) (once s)
                  (Some (insertAll c (length (heap s))
                                   (concat (Nodes <$> conns)) g))
                  (if o is Some _ then o else err s)).
Proof.
  intros HS.
  remember (world (client s)) as w eqn:Hw. revert s g Hw.
  induction HS as [cursor w resp e w' Hp|cursor w resp w' Hp Hn
                  |cursor w resp w' rest o w'' Hp Hn HS IH];
    intros s g -> Hg [|fuel] Hf; simpl in Hf; try lia;
    simpl; unfold pageStep, callPage; rewrite Hp; simpl.
  - destruct s; simpl in *; subst. by rewrite app_nil_r.
  - erewrite mergeNodes_Some by (simpl; done). simpl. rewrite Hn. simpl.
    destruct s; simpl in *; subst. by rewrite !app_nil_r.
  - erewrite mergeNodes_Some by (simpl; done). simpl. rewrite Hn. simpl.
    erewrite IH; [|done|done|simpl; lia]. simpl.
    rewrite requests_cons, insertAll_app, length_app, <-!app_assoc.
    by destruct s.
Qed.

(** Every run of the page loop that returns is such a listing. *)
Lemma pageLoop_inv c listPage fuel cursor s g s' :
  items s = Some g →
  pageLoop c listPage fuel cursor s = Some s' →
  ∃ conns o w',
    Served listPage cursor (world (client s)) conns o w' ∧
    length conns + (if o is Some _ then 1 else 0) ≤ fuel.
Proof.
  revert cursor s g. induction fuel as [|fuel IH]; intros cursor s g Hg; [done|].
  simpl. unfold pageStep, callPage.
  destruct (listPage cursor (world (client s))) as [[resp e] w] eqn:Hp.
  destruct e as [e|]; simpl.
  - intros _. exists [], (Some e), w. split; [by eapply Served_fail|simpl; lia].
  - erewrite mergeNodes_Some by (simpl; done). simpl.
    destruct (HasNextPage (PageInfoOf resp)) eqn:Hn; simpl.
    + intros Hl. eapply IH in Hl as (conns & o & w' & HS & Hlen); [|simpl; done].
      simpl in HS. exists (resp :: conns), o, w'.
      split; [by eapply Served_more|simpl; lia].
    + intros _. exists [resp], None, w. split; [by eapply Served_last|simpl; lia].
Qed.

Lemma Served_deterministic
    (listPage : option string → World → Connection T * option error * World)
    cursor w conns1 o1 w1 conns2 o2 w2 :
  Served listPage cursor w conns1 o1 w1 →
  Served listPage cursor w conns2 o2 w2 →
  conns1 = conns2 ∧ o1 = o2 ∧ w1 = w2.
Proof.
  intros H1. revert conns2 o2 w2.
  induction H1 as [cursor w resp e w1 Hp|cursor w resp w1 Hp Hn
                  |cursor w resp w1 rest o w1' Hp Hn H1 IH];
    intros conns2 o2 w2 H2;
    inversion H2 as [? ? ? ? ? Hq|? ? ? ? Hq Hm|? ? ? ? ? ? ? Hq Hm H2'];
    subst; rewrite Hp in Hq; simplify_eq; try done; try congruence.
  by destruct (IH _ _ _ H2') as (-> & -> & ->).
Qed.

Lemma Served_success_nonempty
    (listPage : option string → World → Connection T * option error * World)
    cursor w conns w' :
  Served listPage cursor w conns None w' → conns ≠ [].
Proof. by inversion 1. Qed.

End PopulateTheory.

(** * The gate and the lookups *)

Section LookupTheory.
Context {World T : Type}.
Implicit Types (s : State World T) (c : Category World T).
Implicit Types (cl : Client World) (h : list T) (pages : list (list T)).

Lemma Fetched_requests_length (f : Fetch World T) w reqs pages o w' :
  Fetched f w reqs pages o w' →
  length reqs = length pages + (if o is Some _ then 1 else 0).
Proof.
  destruct 1; simpl; [|done..].
  by rewrite requests_length, length_fmap.
Qed.

Lemma ensure_Fetched c cl h reqs pages o w' :
  Fetched (fetch c) (world cl) reqs pages o w' →
  ∀ fuel, length reqs ≤ fuel →
  ensure c fuel (newBulkCache cl h) = Some (terminal c cl h reqs pages o w').
Proof.
  intros HF fuel Hfuel. unfold ensure, Do, populate, terminal. simpl.
  remember (fetch c) as f eqn:Hf. remember (world cl) as w0 eqn:Hw.
  destruct HF as [listPage w conns o w' HS|listAll w nodes w' Hl
                 |listAll w nodes e w' Hl]; subst w.
  - rewrite requests_length in Hfuel.
    erewrite pageLoop_Served; [|done|done|done]. simpl. by destruct o.
  - unfold wholeList, callAll. simpl. rewrite Hl. simpl.
    erewrite mergeNodes_Some by done. simpl. by rewrite app_nil_r.
  - unfold wholeList, callAll. simpl. rewrite Hl. simpl. by rewrite app_nil_r.
Qed.

Lemma ensure_inv c cl h fuel s :
  ensure c fuel (newBulkCache cl h) = Some s →
  ∃ reqs pages o w',
    Fetched (fetch c) (world cl) reqs pages o w' ∧
    length reqs ≤ fuel + (if fetch c is Whole _ then 1 else 0) ∧
    s = terminal c cl h reqs pages o w'.
Proof.
  intros He.
  assert (∃ reqs pages o w',
    Fetched (fetch c) (world cl) reqs pages o w' ∧
    length reqs ≤ fuel + (if fetch c is Whole _ then 1 else 0)) as Hex.
  { unfold ensure, Do, populate in He. simpl in He.
    destruct (fetch c) as [listPage|listAll] eqn:Hf.
    - destruct (pageLoop c listPage fuel None _) as [s'|] eqn:Hl; [|done].
      eapply pageLoop_inv in Hl as (conns & o & w' & HS & Hlen); [|done].
      eexists _, _, o, w'. split; [by apply Fetched_paged|].
      rewrite requests_length. lia.
    - destruct (listAll (world cl)) as [[nodes e] w] eqn:Hl.
      destruct e as [e|].
      + eexists _, _, _, _. split; [by eapply Fetched_whole_fail|simpl; lia].
      + eexists _, _, _, _. split; [by eapply Fetched_whole|simpl; lia]. }
  destruct Hex as (reqs & pages & o & w' & HF & Hlen).
  exists reqs, pages, o, w'. split; [done|]. split; [done|].
  destruct (fetch c) as [listPage|listAll] eqn:Hf.
  - rewrite <-Hf in HF.
    rewrite (ensure_Fetched c cl h reqs pages o w' HF fuel) in He by lia.
    by injection He.
  - rewrite <-Hf in HF.
    assert (ensure c fuel (newBulkCache cl h)
            = ensure c (S fuel) (newBulkCache cl h)) as Heq.
    { unfold ensure, Do, populate. by rewrite Hf. }
    rewrite Heq in He.
    rewrite (ensure_Fetched c cl h reqs pages o w' HF (S fuel)) in He by lia.
    by injection He.
Qed.

(** Once the gate has fired, [ensure] returns at once and changes nothing. *)
Lemma ensure_done c fuel s : once s = true → ensure c fuel s = Some s.
Proof. intros H. unfold ensure, Do. by rewrite H. Qed.

Lemma GetByKey_done c fuel k s :
  once s = true → GetByKey c fuel k s = Some (serve c k s, s).
Proof. intros H. unfold GetByKey. by rewrite ensure_done. Qed.

Lemma serve_failed c cl h reqs pages e w' k :
  serve c k (terminal c cl h reqs pages (Some e) w') = (NilPtr, Some e).
Proof. done. Qed.

Lemma terminal_items_ok c cl h reqs pages w' :
  items (terminal c cl h reqs pages None w')
  = Some (insertAll c (length h) (concat pages) ∅).
Proof. unfold terminal. simpl. by destruct (fetch c). Qed.

Lemma serve_populated c cl h reqs pages w' k :
  match lastWith c k (concat pages) with
  | Some r =>
      ∃ i, concat pages !! i = Some r ∧
           serve c k (terminal c cl h reqs pages None w')
           = (Ptr (length h + i), None)
  | None =>
      serve c k (terminal c cl h reqs pages None w')
      = (NilPtr, Some (notFound c k))
  end.
Proof.
  pose proof (insertAll_lookup c (length h) (concat pages) ∅ k) as Hl.
  unfold serve. rewrite terminal_items_ok. simpl.
  destruct (lastWith c k (concat pages)) as [r|].
  - destruct Hl as (i & Hi & Hl). exists i. by rewrite Hl.
  - by rewrite Hl, lookup_empty.
Qed.

Lemma heap_terminal_lookup c cl h reqs pages o w' i :
  heap (terminal c cl h reqs pages o w') !! (length h + i) = concat pages !! i.
Proof.
  simpl. rewrite lookup_app_r by lia. f_equal. lia.
Qed.

(** The records a populated category caches are those its keys designate
    in the dataset. *)
Lemma cached_terminal c cl h reqs pages w' k :
  cached (terminal c cl h reqs pages None w') !! k
  = lastWith c k (concat pages).
Proof.
  unfold cached. rewrite lookup_omap, terminal_items_ok. simpl.
  pose proof (insertAll_lookup c (length h) (concat pages) ∅ k) as Hl.
  destruct (lastWith c k (concat pages)) as [r|].
  - destruct Hl as (i & Hi & ->). simpl.
    rewrite lookup_app_r by lia. by replace (length h + i - length h) with i by lia.
  - by rewrite Hl, lookup_empty.
Qed.

End LookupTheory.

(** * Properties of the lookups *)

Section Claims.
Context {World T : Type}.
Implicit Types (s : State World T) (c : Category World T).
Implicit Types (cl : Client World) (h : list T) (pages : list (list T)).

(** C1 (cache correctness).  Let the list operation of a category --
    labels, workflow states, templates, or teams, which are keyed by
    [team.Key] -- yield the dataset [pages] without error.  Then [ensure]
    returns, and in the state it leaves every lookup returns: for a key
    carried by some record of the dataset, a non-nil pointer to a copy of
    the matching record (the last one with that key) and a nil error; for
    any other key, a nil pointer and the not-found error.  The lookups
    leave the state as it is, and the first lookup on the new cache, which
    triggers the population, returns the same. *)
Theorem cache_correctness c cl h reqs pages w' :
  Fetched (fetch c) (world cl) reqs pages None w' →
  ∃ s,
    (∀ fuel, length reqs ≤ fuel →
       ensure c fuel (newBulkCache cl h) = Some s) ∧
    (∀ fuel k, k ∈ key c <$> concat pages →
       ∃ a r, GetByKey c fuel k s = Some ((Ptr a, None), s) ∧
              heap s !! a = Some r ∧
              r ∈ concat pages ∧ key c r = k ∧
              lastWith c k (concat pages) = Some r) ∧
    (∀ fuel k, k ∉ key c <$> concat pages →
       GetByKey c fuel k s = Some ((NilPtr, Some (notFound c k)), s)) ∧
    (∀ fuel k, length reqs ≤ fuel →
       GetByKey c fuel k (newBulkCache cl h) = GetByKey c fuel k s).
Proof.
  intros HF. exists (terminal c cl h reqs pages None w').
  split; [by apply ensure_Fetched|].
  split; [|split]; [| |intros fuel k Hfuel; unfold GetByKey at 1;
    rewrite (ensure_Fetched c cl h reqs pages None w' HF fuel Hfuel);
    by rewrite GetByKey_done].
  - intros fuel k Hk. apply lastWith_is_Some in Hk as [r Hr].
    pose proof (serve_populated c cl h reqs pages w' k) as Hs.
    rewrite Hr in Hs. destruct Hs as (i & Hi & Hs).
    exists (length h + i), r. rewrite GetByKey_done, Hs by done.
    split; [done|]. split; [by rewrite heap_terminal_lookup|].
    split; [by eapply list_elem_of_lookup_2|].
    split; [by apply lastWith_Some in Hr as [? _]|done].
  - intros fuel k Hk. apply lastWith_None in Hk.
    pose proof (serve_populated c cl h reqs pages w' k) as Hs.
    rewrite Hk in Hs. by rewrite GetByKey_done, Hs.
Qed.

(** C2 (sticky failure).  Let the list operation of a category fail with
    [e] after the pages [pages].  Then [ensure] returns having sent
    exactly one request more than pages were served -- the loop stops at
    the failing request -- and with [e] in the error slot; in the state it
    leaves, every lookup, for whatever key and however often, returns a nil
    pointer and that same [e], sends no request and changes nothing.  This
    includes the keys of the pages that were merged before the failure. *)
Theorem sticky_failure c cl h reqs pages e w' :
  Fetched (fetch c) (world cl) reqs pages (Some e) w' →
  ∃ s,
    (∀ fuel, length reqs ≤ fuel →
       ensure c fuel (newBulkCache cl h) = Some s) ∧
    err s = Some e ∧
    client s = mkClient w' (calls cl ++ reqs) ∧
    length reqs = length pages + 1 ∧
    (∀ fuel k, GetByKey c fuel k s = Some ((NilPtr, Some e), s)) ∧
    (∀ k, k ∈ key c <$> concat pages → is_Some (mapIndex (items s) k)).
Proof.
  intros HF. exists (terminal c cl h reqs pages (Some e) w').
  split; [by apply ensure_Fetched|]. split; [done|]. split; [done|].
  split; [by rewrite (Fetched_requests_length _ _ _ _ _ _ HF)|]. split.
  - intros fuel k. by rewrite GetByKey_done.
  - intros k Hk. unfold terminal. simpl.
    remember (fetch c) as f eqn:Hf. remember (Some e) as o eqn:Ho.
    destruct HF as [listPage w conns o w' HS| |]; simplify_eq/=.
    + apply lastWith_is_Some in Hk as [r Hr].
      pose proof (insertAll_lookup c (length h) (concat (Nodes <$> conns)) ∅ k)
        as Hl.
      rewrite Hr in Hl. destruct Hl as (i & _ & ->). by eexists.
    + by apply elem_of_nil in Hk.
Qed.

(** C6 (empty category).  A list operation that yields a single page
    without records and announces no further page leaves the category
    populated: the gate has fired, the mapping is the empty (non-nil) map,
    the error slot is nil, and every lookup returns the not-found error,
    which is not an error of the remote. *)
Theorem empty_category c cl h reqs w' :
  Fetched (fetch c) (world cl) reqs [[]] None w' →
  ∃ s,
    (∀ fuel, length reqs ≤ fuel →
       ensure c fuel (newBulkCache cl h) = Some s) ∧
    once s = true ∧ items s = Some ∅ ∧ err s = None ∧
    (∀ fuel k,
       GetByKey c fuel k s = Some ((NilPtr, Some (notFound c k)), s) ∧
       ∀ detail, notFound c k ≠ RemoteError detail).
Proof.
  intros HF. exists (terminal c cl h reqs [[]] None w').
  split; [by apply ensure_Fetched|]. split; [done|].
  split; [by rewrite terminal_items_ok|]. split; [done|].
  intros fuel k. split; [|done].
  pose proof (serve_populated c cl h reqs [[]] w' k) as Hs.
  by rewrite GetByKey_done, Hs.
Qed.

(** C9 (one result or one error).  Whatever the remote does, if the first
    lookup of a category returns at all, then exactly one of its two
    results is nil; and in the state it leaves -- populated or failed --
    every further lookup returns, and again exactly one of its two results
    is nil.  The first lookup does return whenever the listing of the
    category ends, with its last page or with an error. *)
Theorem lookup_exactly_one c cl h :
  (∀ fuel k r s,
     GetByKey c fuel k (newBulkCache cl h) = Some (r, s) →
     exactlyOne r ∧
     ∀ fuel' k', ∃ r', GetByKey c fuel' k' s = Some (r', s) ∧ exactlyOne r') ∧
  (∀ reqs pages o w' fuel k,
     Fetched (fetch c) (world cl) reqs pages o w' → length reqs ≤ fuel →
     ∃ r s, GetByKey c fuel k (newBulkCache cl h) = Some (r, s) ∧
            err s = o).
Proof.
  split.
  - intros fuel k r s. unfold GetByKey at 1.
    destruct (ensure c fuel (newBulkCache cl h)) as [s'|] eqn:He; [|done].
    simpl. intros [= <- <-].
    apply ensure_inv in He as (reqs & pages & o & w' & HF & _ & ->).
    assert (∀ k', exactlyOne (serve c k' (terminal c cl h reqs pages o w')))
      as Hone.
    { intros k'. destruct o as [e|].
      - right. by rewrite serve_failed.
      - pose proof (serve_populated c cl h reqs pages w' k') as Hs.
        destruct (lastWith c k' (concat pages)) as [r|].
        + destruct Hs as (i & _ & ->). by left.
        + rewrite Hs. by right. }
    split; [done|]. intros fuel' k'. eexists. by rewrite GetByKey_done.
  - intros reqs pages o w' fuel k HF Hfuel. unfold GetByKey.
    rewrite (ensure_Fetched c cl h reqs pages o w' HF fuel Hfuel). simpl.
    by eexists _, _.
Qed.

End Claims.

Section ClaimWitnesses.
Import Mock.

Lemma labels3_Fetched :
  Fetched (fetch (labelsCategory labels3)) (world fresh)
    [ListPage None; ListPage (Some "A"); ListPage (Some "B")]
    [[bug; feature]; [chore]; [docs]] None 3.
Proof.
  apply (Fetched_paged labels3 0 [labelPage1; labelPage2; labelPage3] None 3).
  eapply Served_more; [reflexivity|reflexivity|].
  eapply Served_more; [reflexivity|reflexivity|].
  eapply Served_last; reflexivity.
Defined.

Lemma labelsFlaky_Fetched :
  Fetched (fetch (labelsCategory labelsFlaky)) (world fresh)
    [ListPage None; ListPage (Some "A")]
    [[bug; feature]] (Some (RemoteError "502 Bad Gateway")) 2.
Proof.
  apply (Fetched_paged labelsFlaky 0 [labelPage1]
           (Some (RemoteError "502 Bad Gateway")) 2).
  eapply Served_more; [reflexivity|reflexivity|].
  eapply Served_fail. reflexivity.
Defined.

Lemma labelsNone_Fetched :
  Fetched (fetch (labelsCategory labelsNone)) (world fresh)
    [ListPage None] [[]] None 1.
Proof.
  apply (Fetched_paged labelsNone 0 [mkConnection [] (mkPageInfo false "")]
           None 1).
  eapply Served_last; reflexivity.
Defined.

Lemma cache_correctness_witness :
  ∃ s,
    (∀ fuel, 3 ≤ fuel →
       ensureLabels labels3 fuel (newBulkCache fresh []) = Some s) ∧
    (∀ fuel k, k ∈ IssueLabel_Id <$> [bug; feature; chore; docs] →
       ∃ a r, GetLabel labels3 fuel k s = Some ((Ptr a, None), s) ∧
              heap s !! a = Some r ∧
              r ∈ [bug; feature; chore; docs] ∧ IssueLabel_Id r = k ∧
              lastWith (labelsCategory labels3) k [bug; feature; chore; docs]
              = Some r) ∧
    (∀ fuel k, k ∉ IssueLabel_Id <$> [bug; feature; chore; docs] →
       GetLabel labels3 fuel k s
       = Some ((NilPtr, Some (Errorf ("label not found in bulk cache: " +:+ k))),
               s)) ∧
    (∀ fuel k, 3 ≤ fuel →
       GetLabel labels3 fuel k (newBulkCache fresh [])
       = GetLabel labels3 fuel k s).
Proof.
  exact (cache_correctness (labelsCategory labels3) fresh [] _ _ _
           labels3_Fetched).
Defined.

Lemma sticky_failure_witness :
  ∃ s,
    (∀ fuel, 2 ≤ fuel →
       ensureLabels labelsFlaky fuel (newBulkCache fresh []) = Some s) ∧
    err s = Some (RemoteError "502 Bad Gateway") ∧
    client s = mkClient 2 [ListPage None; ListPage (Some "A")] ∧
    2 = 1 + 1 ∧
    (∀ fuel k,
       GetLabel labelsFlaky fuel k s
       = Some ((NilPtr, Some (RemoteError "502 Bad Gateway")), s)) ∧
    (∀ k, k ∈ IssueLabel_Id <$> [bug; feature] →
       is_Some (mapIndex (items s) k)).
Proof.
  exact (sticky_failure (labelsCategory labelsFlaky) fresh [] _ _ _ _
           labelsFlaky_Fetched).
Defined.

Lemma empty_category_witness :
  ∃ s,
    (∀ fuel, 1 ≤ fuel →
       ensureLabels labelsNone fuel (newBulkCache fresh []) = Some s) ∧
    once s = true ∧ items s = Some ∅ ∧ err s = None ∧
    (∀ fuel k,
       GetLabel labelsNone fuel k s
       = Some ((NilPtr, Some (notFound (labelsCategory labelsNone) k)), s) ∧
       ∀ detail, notFound (labelsCategory labelsNone) k ≠ RemoteError detail).
Proof.
  exact (empty_category (labelsCategory labelsNone) fresh [] _ _
           labelsNone_Fetched).
Defined.

Lemma lookup_exactly_one_witness :
  (exactlyOne (Ptr 2, None) ∧
   ∀ fuel' k',
     ∃ r', GetLabel labels3 fuel' k'
             (mkState (mkClient 3 [ListPage None; ListPage (Some "A");
                                   ListPage (Some "B")])
                      [bug; feature; chore; docs] true
                      (Some (<["L4" := Ptr 3]> (<["L3" := Ptr 2]>
                               (<["L2" := Ptr 1]> (<["L1" := Ptr 0]> ∅)))))
                      None)
           = Some (r', mkState (mkClient 3 [ListPage None; ListPage (Some "A");
                                            ListPage (Some "B")])
                               [bug; feature; chore; docs] true
                               (Some (<["L4" := Ptr 3]> (<["L3" := Ptr 2]>
                                        (<["L2" := Ptr 1]>
                                           (<["L1" := Ptr 0]> ∅)))))
                               None) ∧
           exactlyOne r') ∧
  (∃ r s, GetLabel labelsFlaky 2 "L1" (newBulkCache fresh []) = Some (r, s) ∧
          err s = Some (RemoteError "502 Bad Gateway")).
Proof.
  split.
  - apply (proj1 (lookup_exactly_one (labelsCategory labels3) fresh [])
             3 "L3").
    reflexivity.
  - apply (proj2 (lookup_exactly_one (labelsCategory labelsFlaky) fresh [])
             _ _ _ _ 2 "L1" labelsFlaky_Fetched).
    simpl. lia.
Defined.

End ClaimWitnesses.

(** * Properties of the page loop *)

Section PagedClaims.
Context {World T : Type}.
Implicit Types (s : State World T) (c : Category World T).
Implicit Types (cl : Client World) (h : list T) (conns : list (Connection T)).

Lemma requests_success cursor conns :
  conns ≠ [] →
  requests cursor conns None
  = ListPage <$> cursor :: cursorsAfter (removelast conns).
Proof.
  intros Hne. unfold requests, cursorsAfter. f_equal.
  rewrite Nat.add_0_r. destruct conns as [|r conns]; [done|].
  change (length (r :: conns)) with (S (length conns)).
  rewrite firstn_cons. f_equal.
  rewrite removelast_firstn_len, fmap_take. done.
Qed.

(** C3 (pagination assembly).  Let the remote, asked for a category's
    pages first with a nil cursor and then with the end cursor of the page
    before, serve the pages [conns], of which the last one alone announces
    no further page.  Then the populate routine returns, having sent
    exactly these requests, one per page, in this order, and none after the
    last page.  Every record of every page is in the mapping under its key;
    every entry of the mapping is a record of some page; and when the keys
    of the records are pairwise distinct, each key maps to its own record
    and the mapping has as many entries as the pages have records. *)
Theorem pagination_assembly c listPage cl h conns w' :
  fetch c = Paged listPage →
  Served listPage None (world cl) conns None w' →
  ∃ s g,
    (∀ fuel, length conns ≤ fuel →
       ensure c fuel (newBulkCache cl h) = Some s) ∧
    client s
    = mkClient w' (calls cl ++
                   (ListPage <$> None :: cursorsAfter (removelast conns))) ∧
    err s = None ∧ items s = Some g ∧
    (∀ r, r ∈ concat (Nodes <$> conns) → is_Some (cached s !! key c r)) ∧
    (∀ k r, cached s !! k = Some r →
       r ∈ concat (Nodes <$> conns) ∧ key c r = k) ∧
    dom g = list_to_set (key c <$> concat (Nodes <$> conns)) ∧
    size g = length (remove_dups (key c <$> concat (Nodes <$> conns))) ∧
    (NoDup (key c <$> concat (Nodes <$> conns)) →
       (∀ r, r ∈ concat (Nodes <$> conns) → cached s !! key c r = Some r) ∧
       size g = length (concat (Nodes <$> conns))).
Proof.
  intros Hf HS.
  assert (Fetched (fetch c) (world cl) (requests None conns None)
            (Nodes <$> conns) None w') as HF.
  { rewrite Hf. by apply Fetched_paged. }
  set (s := terminal c cl h (requests None conns None) (Nodes <$> conns)
              None w').
  exists s, (insertAll c (length h) (concat (Nodes <$> conns)) ∅).
  assert (dom (insertAll c (length h) (concat (Nodes <$> conns)) ∅)
          = list_to_set (key c <$> concat (Nodes <$> conns))) as Hdom.
  { rewrite insertAll_dom, dom_empty_L. by rewrite (left_id_L ∅ (∪)). }
  split; [|split; [|split; [done|split; [|split; [|split; [|split; [|split]]]]]]].
  - intros fuel Hfuel. apply ensure_Fetched; [done|].
    rewrite requests_length. simpl. lia.
  - subst s. unfold terminal. simpl.
    rewrite requests_success; [done|]. by eapply Served_success_nonempty.
  - apply terminal_items_ok.
  - intros r Hr. subst s. rewrite cached_terminal.
    apply lastWith_is_Some. by apply list_elem_of_fmap_2.
  - intros k r. subst s. rewrite cached_terminal. intros Hr.
    apply lastWith_Some in Hr as (Hk & l1 & l2 & Heq & _).
    split; [|done]. rewrite Heq. apply elem_of_app. right. by left.
  - done.
  - rewrite <-size_dom, Hdom.
    rewrite <-(size_list_to_set (C:=gset string) (remove_dups _))
      by apply NoDup_remove_dups.
    f_equal. apply set_eq. intros k.
    by rewrite !elem_of_list_to_set, elem_of_remove_dups.
  - intros Hnd. split.
    + intros r Hr. subst s. rewrite cached_terminal. by apply lastWith_NoDup.
    + rewrite <-size_dom, Hdom.
      rewrite size_list_to_set by done. by rewrite length_fmap.
Qed.

(** C8 (last write wins).  In a successful traversal, let a key occur on
    the page [page] and also on an earlier page, and on no page after
    [page].  Then the completed mapping holds for that key the record of
    [page] -- the last one, should [page] carry the key more than once --
    in the cell that was allocated for it while [page] was merged; the
    lookup returns it with a nil error. *)
Theorem later_page_overwrites c listPage cl h conns w' before page after k :
  fetch c = Paged listPage →
  Served listPage None (world cl) conns None w' →
  Nodes <$> conns = before ++ page :: after →
  k ∈ key c <$> concat before →
  k ∈ key c <$> page →
  k ∉ key c <$> concat after →
  ∃ s a r,
    (∀ fuel, length conns ≤ fuel →
       ensure c fuel (newBulkCache cl h) = Some s) ∧
    (∀ fuel, GetByKey c fuel k s = Some ((Ptr a, None), s)) ∧
    heap s !! a = Some r ∧
    lastWith c k page = Some r ∧ r ∈ page ∧
    length h + length (concat before) ≤ a
    ∧ a < length h + length (concat before) + length page.
Proof.
  intros Hf HS Hpages _ Hpage Hafter.
  assert (Fetched (fetch c) (world cl) (requests None conns None)
            (Nodes <$> conns) None w') as HF.
  { rewrite Hf. by apply Fetched_paged. }
  set (reqs := requests None conns None) in *.
  set (pages := Nodes <$> conns) in *.
  assert (concat pages = concat before ++ page ++ concat after) as Hcat.
  { rewrite Hpages, concat_app. done. }
  apply lastWith_is_Some in Hpage as [r Hr].
  apply lastWith_None in Hafter.
  assert (lastWith c k (concat pages) = Some r) as Hlast.
  { by rewrite Hcat, !lastWith_app, Hafter, Hr. }
  pose proof (insertAll_lookup_last c (length h) (concat pages) ∅ k) as Hl.
  rewrite Hlast in Hl. destruct Hl as (i & Hi & Hg & Hmax).
  (* the cell lies in the range of [page] *)
  pose proof Hr as Hr'. apply lastWith_Some in Hr' as (Hk & l1 & l2 & Hp & _).
  assert (length (concat before) ≤ i) as Hlo.
  { enough (length (concat before) + length l1 ≤ i) by lia.
    apply (Hmax (length (concat before) + length l1) r); [|done].
    rewrite Hcat, lookup_app_r by lia.
    replace (length (concat before) + length l1 - length (concat before))
      with (length l1) by lia.
    rewrite Hp, <-app_assoc. rewrite lookup_app_r by lia.
    by rewrite Nat.sub_diag. }
  assert (i < length (concat before) + length page) as Hhi.
  { destruct (decide (i < length (concat before) + length page)); [done|].
    exfalso. rewrite Hcat in Hi.
    rewrite lookup_app_r, lookup_app_r in Hi by lia.
    assert (k ∈ key c <$> concat after) as Hin.
    { rewrite <-Hk. apply list_elem_of_fmap_2.
      by eapply list_elem_of_lookup_2. }
    by apply lastWith_None in Hin. }
  exists (terminal c cl h reqs pages None w'), (length h + i), r.
  split; [|split; [|split; [|split; [done|split; [|lia]]]]].
  - intros fuel Hfuel. apply ensure_Fetched; [done|].
    subst reqs. rewrite requests_length. simpl. lia.
  - intros fuel. rewrite GetByKey_done by done. f_equal. f_equal.
    unfold serve. rewrite terminal_items_ok. simpl. by rewrite Hg.
  - by rewrite heap_terminal_lookup.
  - rewrite Hp. apply elem_of_app. right. by left.
Qed.

End PagedClaims.

Section TeamClaims.
Context {World : Type}.
Implicit Types (cl : Client World) (h : list Team).

(** C7, as amended (teams are keyed by [team.Key]).  After a successful
    traversal, for every team record fetched, [GetTeamByKey(team.Key)]
    returns a non-nil pointer to the last fetched record that carries this
    key, and a nil error.  That is the record itself when no record fetched
    after it carries the same key, in particular when the keys of the
    fetched teams are pairwise distinct.  A string that is the key of no
    fetched team -- be it the identifier of one -- is answered with the
    not-found error. *)
Theorem teams_keyed_by_key listPage cl h reqs pages w' t :
  Fetched (Paged listPage) (world cl) reqs pages None w' →
  t ∈ concat pages →
  ∃ s a t',
    (∀ fuel, length reqs ≤ fuel →
       ensureTeams listPage fuel (newBulkCache cl h) = Some s) ∧
    (∀ fuel,
       GetTeamByKey listPage fuel (Team_Key t) s = Some ((Ptr a, None), s)) ∧
    heap s !! a = Some t' ∧
    t' ∈ concat pages ∧ Team_Key t' = Team_Key t ∧
    lastWith (teamsCategory listPage) (Team_Key t) (concat pages) = Some t' ∧
    (∀ l1 l2, concat pages = l1 ++ t :: l2 →
       (∀ x, x ∈ l2 → Team_Key x ≠ Team_Key t) → t' = t) ∧
    (NoDup (Team_Key <$> concat pages) → t' = t) ∧
    (∀ fuel k, k ∉ Team_Key <$> concat pages →
       GetTeamByKey listPage fuel k s
       = Some ((NilPtr, Some (Errorf ("team not found in bulk cache: " +:+ k))),
               s)).
Proof.
  intros HF Ht. unfold ensureTeams, GetTeamByKey.
  set (c := teamsCategory listPage).
  assert (is_Some (lastWith c (Team_Key t) (concat pages))) as [t' Ht'].
  { apply lastWith_is_Some. by apply (list_elem_of_fmap_2 Team_Key). }
  pose proof (serve_populated c cl h reqs pages w' (Team_Key t)) as Hs.
  rewrite Ht' in Hs. destruct Hs as (i & Hi & Hs).
  exists (terminal c cl h reqs pages None w'), (length h + i), t'.
  split; [by apply (ensure_Fetched c)|].
  split. { intros fuel. by rewrite GetByKey_done, Hs. }
  split; [by rewrite heap_terminal_lookup|].
  split; [by eapply list_elem_of_lookup_2|].
  split; [by apply lastWith_Some in Ht' as [? _]|].
  split; [done|]. split; [|split].
  - intros l1 l2 Heq Hl2.
    pose proof (lastWith_last_occurrence c _ l1 t l2 Heq Hl2) as Hl.
    simpl in Hl. congruence.
  - intros Hnd. pose proof (lastWith_NoDup c _ t Hnd Ht) as Hl.
    simpl in Hl. congruence.
  - intros fuel k Hk. apply (lastWith_None c) in Hk.
    pose proof (serve_populated c cl h reqs pages w' k) as Hs'.
    rewrite Hk in Hs'. by rewrite GetByKey_done, Hs'.
Qed.

End TeamClaims.

(** * The scan by owning team *)

Section ScanTheory.
Context {World : Type}.
Implicit Types (s : State World WorkflowState).
Implicit Types (c : Category World WorkflowState).
Implicit Types (h : list WorkflowState) (g : gmap string ptr).
Implicit Types (entries : list (string * ptr)).

Lemma validIn_cons h k p entries :
  validIn h ((k, p) :: entries) →
  (∃ a ws, p = Ptr a ∧ h !! a = Some ws) ∧ validIn h entries.
Proof.
  intros Hv. split.
  - destruct (Hv k p) as (a & -> & Ha); [by left|].
    apply lookup_lt_is_Some in Ha as [ws Hws]. by exists a, ws.
  - intros k' p' Hin. apply (Hv k' p'). by right.
Qed.

Lemma pointees_Permutation h entries entries' :
  entries ≡ₚ entries' → pointees h entries ≡ₚ pointees h entries'.
Proof. intros Hp. unfold pointees. by rewrite Hp. Qed.

Lemma readSlice_seq h (vs : list WorkflowState) :
  readSlice (seq (length h) (length vs)) (h ++ vs) = Some vs.
Proof.
  apply mapM_Some_2, Forall2_lookup. intros i.
  destruct (decide (i < length vs)) as [Hlt|Hge].
  - rewrite lookup_seq_lt by done.
    destruct (lookup_lt_is_Some_2 vs i Hlt) as [v Hv]. rewrite Hv.
    constructor. rewrite lookup_app_r by lia.
    by replace (length h + i - length h) with i by lia.
  - rewrite (lookup_ge_None_2 vs) by lia.
    rewrite (lookup_ge_None_2 (seq _ _)) by (rewrite length_seq; lia).
    constructor.
Qed.

(** The scan copies, in the order of the entries, the records owned by
    [teamID] into fresh cells behind the heap. *)
Lemma scanTeam_Some teamID entries h :
  validIn h entries →
  ∀ result extra,
    scanTeam teamID entries result (h ++ extra)
    = Some (result ++
            seq (length (h ++ extra))
                (length (filter (λ ws, teamOf ws = teamID)
                                (pointees h entries))),
            h ++ extra ++
            filter (λ ws, teamOf ws = teamID) (pointees h entries)).
Proof.
  induction entries as [|[k p] entries IH]; intros Hv result extra.
  - simpl. by rewrite !app_nil_r.
  - apply validIn_cons in Hv as [(a & ws & -> & Ha) Hv].
    unfold pointees. simpl. rewrite Ha. simpl.
    rewrite (lookup_app_l_Some _ _ _ _ Ha). simpl.
    rewrite filter_cons. destruct (String.eqb (teamOf ws) teamID) eqn:Heq.
    + apply String.eqb_eq in Heq. rewrite decide_True by done.
      unfold append. rewrite <-(app_assoc h extra [ws]), IH by done.
      fold (pointees h entries). simpl.
      rewrite <-!app_assoc. simpl. do 3 f_equal.
      rewrite !length_app. simpl. f_equal. f_equal. lia.
    + apply String.eqb_neq in Heq. rewrite decide_False by done.
      by rewrite IH.
Qed.

Lemma pointees_keys c h entries :
  (∀ k p, (k, p) ∈ entries → ∃ ws, deref p h = Some ws ∧ key c ws = k) →
  key c <$> pointees h entries = entries.*1.
Proof.
  induction entries as [|[k p] entries IH]; intros Hv; [done|].
  unfold pointees. simpl.
  destruct (Hv k p) as (ws & -> & Hk); [by left|]. simpl.
  rewrite Hk. f_equal. apply IH. intros k' p' Hin. apply Hv. by right.
Qed.

End ScanTheory.

Section ScanClaims.
Context {World : Type}.
Implicit Types (s : State World WorkflowState).
Implicit Types (c : Category World WorkflowState).
Implicit Types (cl : Client World) (h : list WorkflowState).
Implicit Types (pages : list (list WorkflowState)).

Lemma terminal_validIn c cl h reqs pages o w' ord :
  validIn (heap (terminal c cl h reqs pages o w'))
          (mapRange ord (items (terminal c cl h reqs pages o w'))).
Proof.
  intros k p Hin. unfold terminal, mapRange in *. simpl in *.
  destruct (fetch c), o; simpl in *;
    try (by apply elem_of_nil in Hin);
    rewrite arrange_perm in Hin; apply elem_of_map_to_list in Hin;
    apply insertAll_values in Hin as [Hin|(i & Hi & ->)];
    try (by rewrite lookup_empty in Hin);
    (eexists; split; [done|rewrite length_app; lia]).
Qed.

Lemma mapRange_Permutation ord ord' (m : option (gmap string ptr)) :
  mapRange ord m ≡ₚ mapRange ord' m.
Proof. destruct m; simpl; [|done]. by rewrite !arrange_perm. Qed.

Lemma selected_Permutation c cl h reqs pages w' ord ord' teamID :
  selected c cl h reqs pages w' ord teamID
  ≡ₚ selected c cl h reqs pages w' ord' teamID.
Proof.
  unfold selected. apply filter_Permutation, pointees_Permutation,
    mapRange_Permutation.
Qed.

Lemma terminal_entry c cl h reqs pages w' ord k p :
  (k, p) ∈ mapRange ord (items (terminal c cl h reqs pages None w')) →
  ∃ ws, deref p (heap (terminal c cl h reqs pages None w')) = Some ws ∧
        lastWith c k (concat pages) = Some ws.
Proof.
  rewrite terminal_items_ok. simpl. rewrite arrange_perm.
  intros Hin. apply elem_of_map_to_list in Hin.
  pose proof (insertAll_lookup c (length h) (concat pages) ∅ k) as Hl.
  destruct (lastWith c k (concat pages)) as [r|].
  - destruct Hl as (i & Hi & Hl). rewrite Hl in Hin. injection Hin as <-.
    exists r. split; [|done]. simpl. rewrite lookup_app_r by lia.
    by replace (length h + i - length h) with i by lia.
  - by rewrite Hl, lookup_empty in Hin.
Qed.

Lemma elem_of_pointees_terminal c cl h reqs pages w' ord ws :
  ws ∈ pointees (heap (terminal c cl h reqs pages None w'))
                (mapRange ord (items (terminal c cl h reqs pages None w')))
  ↔ lastWith c (key c ws) (concat pages) = Some ws.
Proof.
  unfold pointees. rewrite list_elem_of_omap. split.
  - intros ([k p] & Hin & Hd).
    apply terminal_entry in Hin as (ws' & Hd' & Hl).
    simpl in Hd, Hd'. rewrite Hd in Hd'. injection Hd' as <-.
    pose proof Hl as Hk. apply lastWith_Some in Hk as [<- _]. done.
  - intros Hl.
    pose proof (insertAll_lookup c (length h) (concat pages) ∅ (key c ws))
      as Hg.
    rewrite Hl in Hg. destruct Hg as (i & Hi & Hg).
    exists (key c ws, Ptr (length h + i)). split.
    + rewrite terminal_items_ok. simpl. rewrite arrange_perm.
      by apply elem_of_map_to_list.
    + simpl. rewrite lookup_app_r by lia.
      by replace (length h + i - length h) with i by lia.
Qed.

Lemma elem_of_selected c cl h reqs pages w' ord teamID ws :
  ws ∈ selected c cl h reqs pages w' ord teamID
  ↔ lastWith c (key c ws) (concat pages) = Some ws ∧ teamOf ws = teamID.
Proof.
  unfold selected. rewrite list_elem_of_filter, elem_of_pointees_terminal.
  tauto.
Qed.

Lemma selected_NoDup c cl h reqs pages w' ord teamID :
  NoDup (selected c cl h reqs pages w' ord teamID).
Proof.
  unfold selected. apply NoDup_filter, (NoDup_fmap_1 (key c)).
  rewrite (pointees_keys c).
  - rewrite terminal_items_ok. simpl. rewrite arrange_perm.
    apply NoDup_fst_map_to_list.
  - intros k p Hin. apply terminal_entry in Hin as (ws & Hd & Hl).
    exists ws. split; [done|]. by apply lastWith_Some in Hl as [? _].
Qed.

(** The scan of a populated category, in any state that differs from the
    one [ensure] left only by cells behind its heap. *)
Lemma scan_populated c cl h reqs pages w' fuel ord teamID extra :
  let s := terminal c cl h reqs pages None w' in
  GetWorkflowStatesByTeamID_in c fuel ord teamID
    (set_heap (heap s ++ extra) s)
  = Some ((seq (length (heap s ++ extra))
               (length (selected c cl h reqs pages w' ord teamID)), None),
          set_heap (heap s ++ extra ++ selected c cl h reqs pages w' ord teamID)
                   s).
Proof.
  intros s. unfold GetWorkflowStatesByTeamID_in.
  rewrite ensure_done by done. simpl.
  pose proof (scanTeam_Some teamID _ _
                (terminal_validIn c cl h reqs pages None w' ord) [] extra)
    as Hscan.
  simpl in Hscan. rewrite Hscan. done.
Qed.

Lemma scan_failed c cl h reqs pages e w' fuel ord teamID :
  GetWorkflowStatesByTeamID_in c fuel ord teamID
    (terminal c cl h reqs pages (Some e) w')
  = Some (([], Some e), terminal c cl h reqs pages (Some e) w').
Proof.
  unfold GetWorkflowStatesByTeamID_in. by rewrite ensure_done.
Qed.

(** Cells behind the heap of [s] do not show in what [s] caches. *)
Lemma cached_frame c cl h reqs pages w' extra :
  let s := terminal c cl h reqs pages None w' in
  cached (set_heap (heap s ++ extra) s) = cached s.
Proof.
  intros s. apply map_eq. intros k. unfold cached.
  rewrite !lookup_omap.
  change (items (set_heap (heap s ++ extra) s)) with (items s).
  subst s. rewrite terminal_items_ok.
  change (default ∅ (Some ?g)) with g.
  destruct (insertAll c (length h) (concat pages) ∅ !! k) as [p|] eqn:Hp;
    [|done].
  apply insertAll_values in Hp as [Hp|(i & Hi & ->)];
    [by rewrite lookup_empty in Hp|].
  simpl. apply lookup_app_l. rewrite length_app. lia.
Qed.

(** Element assignments through a slice whose cells lie behind [h] leave
    [h] alone. *)
Lemma sliceStores_frame (h : list WorkflowState) sl writes extra h2 :
  (∀ a, a ∈ sl → length h ≤ a) →
  sliceStores sl writes (h ++ extra) = Some h2 →
  ∃ extra', h2 = h ++ extra'.
Proof.
  intros Hsl. revert extra.
  induction writes as [|[i v] writes IH]; intros extra; simpl.
  - intros [= <-]. by exists extra.
  - unfold sliceStore. destruct (sl !! i) as [a|] eqn:Ha; [|done]. simpl.
    assert (length h ≤ a) as Hle.
    { apply Hsl. by eapply list_elem_of_lookup_2. }
    rewrite insert_app_r_alt by done. apply IH.
Qed.

End ScanClaims.

Section ScanTheorems.
Context {World : Type}.
Implicit Types (s : State World WorkflowState).
Implicit Types (c : Category World WorkflowState).
Implicit Types (cl : Client World) (h : list WorkflowState).
Implicit Types (pages : list (list WorkflowState)).

(** C5 (scan by owning team).  After the workflow states have been
    listed, [GetWorkflowStatesByTeamID] returns: if the listing failed, the
    nil slice and the stored error; otherwise a slice and a nil error, the
    slice holding, once each and in the order of the map iteration, exactly
    the cached workflow states whose [Team.Id] is [teamID] -- the records
    of the dataset that their identifiers designate -- and being empty when
    there is none. *)
Theorem foreign_reference_scan c cl h reqs pages o w' :
  Fetched (fetch c) (world cl) reqs pages o w' →
  ∃ s,
    (∀ fuel, length reqs ≤ fuel →
       ensure c fuel (newBulkCache cl h) = Some s) ∧
    ∀ fuel ord teamID,
      match o with
      | Some e =>
          GetWorkflowStatesByTeamID_in c fuel ord teamID s
          = Some (([], Some e), s)
      | None =>
          ∃ sl s1 vs,
            GetWorkflowStatesByTeamID_in c fuel ord teamID s
            = Some ((sl, None), s1) ∧
            readSlice sl (heap s1) = Some vs ∧
            NoDup vs ∧
            (∀ ws, ws ∈ vs ↔
                   (∃ k, cached s !! k = Some ws) ∧ teamOf ws = teamID) ∧
            (∀ ws, ws ∈ vs ↔
                   lastWith c (key c ws) (concat pages) = Some ws ∧
                   teamOf ws = teamID) ∧
            ((∀ k ws, cached s !! k = Some ws → teamOf ws ≠ teamID) →
             sl = [])
      end.
Proof.
  intros HF. exists (terminal c cl h reqs pages o w').
  split; [by apply ensure_Fetched|]. intros fuel ord teamID.
  destruct o as [e|]; [by apply scan_failed|].
  pose proof (scan_populated c cl h reqs pages w' fuel ord teamID []) as Hs.
  simpl in Hs. rewrite !app_nil_r in Hs.
  set (vs := selected c cl h reqs pages w' ord teamID) in *.
  assert (∀ ws, (∃ k, cached (terminal c cl h reqs pages None w') !! k = Some ws)
                ↔ lastWith c (key c ws) (concat pages) = Some ws) as Hcached.
  { intros ws. split.
    - intros [k Hk]. rewrite cached_terminal in Hk.
      pose proof Hk as Hk'. by apply lastWith_Some in Hk' as [<- _].
    - intros Hl. exists (key c ws). by rewrite cached_terminal. }
  eexists _, _, vs. split; [exact Hs|]. split; [|split; [|split; [|split]]].
  - simpl. apply (readSlice_seq (h ++ concat pages) vs).
  - apply selected_NoDup.
  - intros ws. rewrite Hcached. apply elem_of_selected.
  - intros ws. apply elem_of_selected.
  - intros Hnone. destruct vs as [|ws vs'] eqn:Hvs; [done|]. exfalso.
    assert (ws ∈ selected c cl h reqs pages w' ord teamID) as Hin.
    { fold vs. rewrite Hvs. by left. }
    apply elem_of_selected in Hin as [Hl Ht].
    apply (Hnone (key c ws) ws); [|done]. by rewrite cached_terminal.
Qed.

(** C10 (the scan returns copies).  Once the workflow states have been
    listed, with or without error, a call of [GetWorkflowStatesByTeamID]
    leaves the gate, the mapping, the error slot and every cell the mapping
    points to as they were; the cells of the returned slice are new ones.
    The first call on a new cache, which triggers the listing, returns the
    same and leaves the same state.  Whatever the caller then assigns to
    elements of that slice, the cache holds the same records as before, and
    a repeated call with the same team returns the same records as the
    first call did: in the same order if the map is iterated in the same
    order, and rearranged otherwise. *)
Theorem scan_returns_copies c cl h reqs pages o w' :
  Fetched (fetch c) (world cl) reqs pages o w' →
  ∃ s,
    (∀ fuel, length reqs ≤ fuel →
       ensure c fuel (newBulkCache cl h) = Some s) ∧
    ∀ fuel ord teamID, ∃ sl s1 vs,
      GetWorkflowStatesByTeamID_in c fuel ord teamID s
      = Some ((sl, o), s1) ∧
      (length reqs ≤ fuel →
       GetWorkflowStatesByTeamID_in c fuel ord teamID (newBulkCache cl h)
       = Some ((sl, o), s1)) ∧
      readSlice sl (heap s1) = Some vs ∧
      client s1 = client s ∧ once s1 = once s ∧
      items s1 = items s ∧ err s1 = err s ∧
      cached s1 = cached s ∧
      (∀ a v, heap s !! a = Some v → heap s1 !! a = Some v) ∧
      (∀ a, a ∈ sl → heap s !! a = None) ∧
      ∀ writes h2,
        sliceStores sl writes (heap s1) = Some h2 →
        cached (set_heap h2 s1) = cached s ∧
        (∀ a v, heap s !! a = Some v → h2 !! a = Some v) ∧
        ∀ fuel' ord', ∃ sl' s2 vs',
          GetWorkflowStatesByTeamID_in c fuel' ord' teamID (set_heap h2 s1)
          = Some ((sl', o), s2) ∧
          readSlice sl' (heap s2) = Some vs' ∧
          vs' ≡ₚ vs ∧
          (arrange ord' = arrange ord → vs' = vs) ∧
          cached s2 = cached s.
Proof.
  intros HF. set (s := terminal c cl h reqs pages o w').
  exists s. split; [by apply ensure_Fetched|]. intros fuel ord teamID.
  assert (∀ r, GetWorkflowStatesByTeamID_in c fuel ord teamID s = Some r →
               length reqs ≤ fuel →
               GetWorkflowStatesByTeamID_in c fuel ord teamID
                 (newBulkCache cl h) = Some r) as Hlazy.
  { intros r Hr Hfuel. unfold GetWorkflowStatesByTeamID_in in *.
    rewrite (ensure_Fetched c cl h reqs pages o w' HF fuel Hfuel).
    by rewrite ensure_done in Hr. }
  destruct o as [e|].
  - (* the listing failed: the nil slice, nothing to assign to *)
    pose proof (scan_failed c cl h reqs pages e w' fuel ord teamID) as Hs.
    exists [], s, []. split; [exact Hs|]. split; [by apply Hlazy|].
    do 7 (split; [done|]).
    split; [intros a Ha; by apply elem_of_nil in Ha|].
    intros writes h2 Hw. assert (h2 = heap s) as ->.
    { destruct writes as [|[i v] writes]; simpl in Hw; [by injection Hw|done]. }
    do 2 (split; [done|]). intros fuel' ord'.
    exists [], s, []. split; [apply scan_failed|]. done.
  - pose proof (scan_populated c cl h reqs pages w' fuel ord teamID []) as Hs.
    simpl in Hs. rewrite !app_nil_r in Hs.
    set (vs := selected c cl h reqs pages w' ord teamID) in *.
    eexists _, _, vs. split; [exact Hs|]. split; [by apply Hlazy|].
    split; [apply (readSlice_seq (h ++ concat pages) vs)|].
    do 4 (split; [done|]).
    split; [apply (cached_frame c cl h reqs pages w' vs)|].
    split; [intros a v Ha; by apply lookup_app_l_Some|].
    assert (∀ a, a ∈ seq (length (h ++ concat pages)) (length vs) →
                 length (heap s) ≤ a) as Hfresh.
    { intros a Ha. apply elem_of_seq in Ha. simpl. lia. }
    split; [intros a Ha; apply lookup_ge_None_2; by apply Hfresh|].
    intros writes h2 Hw. simpl in Hw.
    apply (sliceStores_frame (h ++ concat pages)) in Hw as [extra ->];
      [|done].
    split; [apply (cached_frame c cl h reqs pages w' extra)|].
    split; [intros a v Ha; by apply lookup_app_l_Some|].
    intros fuel' ord'.
    pose proof (scan_populated c cl h reqs pages w' fuel' ord' teamID extra)
      as Hs'.
    set (vs' := selected c cl h reqs pages w' ord' teamID) in *.
    eexists _, _, vs'. split; [exact Hs'|].
    split; [|split; [|split]].
    + simpl. rewrite app_assoc.
      apply (readSlice_seq ((h ++ concat pages) ++ extra) vs').
    + apply selected_Permutation.
    + intros Heq. subst vs vs'. unfold selected, mapRange.
      by rewrite Heq.
    + apply (cached_frame c cl h reqs pages w' (extra ++ vs')).
Qed.

End ScanTheorems.

Section MoreWitnesses.
Import Mock.

Lemma labels3_Served :
  Served labels3 None (world fresh) [labelPage1; labelPage2; labelPage3] None 3.
Proof.
  eapply Served_more; [reflexivity|reflexivity|].
  eapply Served_more; [reflexivity|reflexivity|].
  eapply Served_last; reflexivity.
Defined.

Lemma labelsDup_Served :
  Served labelsDup None (world fresh) [labelPage1; labelPageDup] None 2.
Proof.
  eapply Served_more; [reflexivity|reflexivity|].
  eapply Served_last; reflexivity.
Defined.

Lemma states3_Fetched :
  Fetched (fetch (workflowStatesCategory states3)) (world fresh)
    [ListPage None; ListPage (Some "A")] [[todo; backlog]; [doing]] None 2.
Proof.
  apply (Fetched_paged states3 0 [statePage1; statePage2] None 2).
  eapply Served_more; [reflexivity|reflexivity|].
  eapply Served_last; reflexivity.
Defined.

Lemma teamsClash_Fetched :
  Fetched (Paged teamsClash) (world fresh)
    [ListPage None] [[eng; ops; eng2]] None 1.
Proof.
  apply (Fetched_paged teamsClash 0
           [mkConnection [eng; ops; eng2] (mkPageInfo false "A")] None 1).
  eapply Served_last; reflexivity.
Defined.

Lemma pagination_assembly_witness :
  ∃ s g,
    (∀ fuel, 3 ≤ fuel →
       ensureLabels labels3 fuel (newBulkCache fresh []) = Some s) ∧
    client s
    = mkClient 3 [ListPage None; ListPage (Some "A"); ListPage (Some "B")] ∧
    err s = None ∧ items s = Some g ∧
    (∀ r, r ∈ [bug; feature; chore; docs] →
       is_Some (cached s !! IssueLabel_Id r)) ∧
    (∀ k r, cached s !! k = Some r →
       r ∈ [bug; feature; chore; docs] ∧ IssueLabel_Id r = k) ∧
    dom g = list_to_set ["L1"; "L2"; "L3"; "L4"] ∧
    size g = length (remove_dups ["L1"; "L2"; "L3"; "L4"]) ∧
    (NoDup ["L1"; "L2"; "L3"; "L4"] →
       (∀ r, r ∈ [bug; feature; chore; docs] →
          cached s !! IssueLabel_Id r = Some r) ∧
       size g = 4).
Proof.
  exact (pagination_assembly (labelsCategory labels3) labels3 fresh []
           [labelPage1; labelPage2; labelPage3] 3 eq_refl labels3_Served).
Defined.

Lemma later_page_overwrites_witness :
  ∃ s a r,
    (∀ fuel, 2 ≤ fuel →
       ensureLabels labelsDup fuel (newBulkCache fresh []) = Some s) ∧
    (∀ fuel, GetLabel labelsDup fuel "L1" s = Some ((Ptr a, None), s)) ∧
    heap s !! a = Some r ∧
    lastWith (labelsCategory labelsDup) "L1" [chore; bug2] = Some r ∧
    r ∈ [chore; bug2] ∧
    0 + 2 ≤ a ∧ a < 0 + 2 + 2.
Proof.
  apply (later_page_overwrites (labelsCategory labelsDup) labelsDup fresh []
           [labelPage1; labelPageDup] 2 [[bug; feature]] [chore; bug2] [] "L1"
           eq_refl labelsDup_Served eq_refl).
  - by left.
  - right. by left.
  - intros H. by apply elem_of_nil in H.
Defined.

Lemma teams_keyed_by_key_witness :
  ∃ s a t',
    (∀ fuel, 1 ≤ fuel →
       ensureTeams teamsClash fuel (newBulkCache fresh []) = Some s) ∧
    (∀ fuel, GetTeamByKey teamsClash fuel "ENG" s = Some ((Ptr a, None), s)) ∧
    heap s !! a = Some t' ∧
    t' ∈ [eng; ops; eng2] ∧ Team_Key t' = "ENG" ∧
    lastWith (teamsCategory teamsClash) "ENG" [eng; ops; eng2] = Some t' ∧
    (∀ l1 l2, [eng; ops; eng2] = l1 ++ eng :: l2 →
       (∀ x, x ∈ l2 → Team_Key x ≠ "ENG") → t' = eng) ∧
    (NoDup ["ENG"; "OPS"; "ENG"] → t' = eng) ∧
    (∀ fuel k, k ∉ ["ENG"; "OPS"; "ENG"] →
       GetTeamByKey teamsClash fuel k s
       = Some ((NilPtr, Some (Errorf ("team not found in bulk cache: " +:+ k))),
               s)).
Proof.
  apply (teams_keyed_by_key teamsClash fresh [] _ _ _ eng teamsClash_Fetched).
  by left.
Defined.

(** C7 as stated does not hold: two of the teams fetched carry the key
    ENG, and the lookup of that key returns the second of them, not the
    first. *)
Lemma teams_keyed_by_key_counterexample :
  ¬ (∀ (listPage : option string → nat → Connection Team * option error * nat)
       cl h reqs pages w' t,
       Fetched (Paged listPage) (world cl) reqs pages None w' →
       t ∈ concat pages →
       ∃ s a,
         ensureTeams listPage (length reqs) (newBulkCache cl h) = Some s ∧
         GetTeamByKey listPage 0 (Team_Key t) s = Some ((Ptr a, None), s) ∧
         heap s !! a = Some t).
Proof.
  intros Hclaim.
  destruct (Hclaim teamsClash fresh [] _ _ _ eng teamsClash_Fetched)
    as (s & a & He & Hg & Ha); [by left|].
  vm_compute in He. injection He as <-.
  vm_compute in Hg. injection Hg as <-.
  vm_compute in Ha. discriminate Ha.
Qed.

Lemma foreign_reference_scan_witness :
  ∃ s,
    (∀ fuel, 2 ≤ fuel →
       ensureWorkflowStates states3 fuel (newBulkCache fresh []) = Some s) ∧
    ∀ fuel ord teamID,
      ∃ sl s1 vs,
        GetWorkflowStatesByTeamID states3 fuel ord teamID s
        = Some ((sl, None), s1) ∧
        readSlice sl (heap s1) = Some vs ∧
        NoDup vs ∧
        (∀ ws, ws ∈ vs ↔
               (∃ k, cached s !! k = Some ws) ∧ teamOf ws = teamID) ∧
        (∀ ws, ws ∈ vs ↔
               lastWith (workflowStatesCategory states3) (WorkflowState_Id ws)
                 [todo; backlog; doing] = Some ws ∧
               teamOf ws = teamID) ∧
        ((∀ k ws, cached s !! k = Some ws → teamOf ws ≠ teamID) → sl = []).
Proof.
  exact (foreign_reference_scan (workflowStatesCategory states3) fresh []
           _ _ _ _ states3_Fetched).
Defined.

Lemma scan_returns_copies_witness :
  ∃ s,
    (∀ fuel, 2 ≤ fuel →
       ensureWorkflowStates states3 fuel (newBulkCache fresh []) = Some s) ∧
    ∀ fuel ord teamID, ∃ sl s1 vs,
      GetWorkflowStatesByTeamID states3 fuel ord teamID s
      = Some ((sl, None), s1) ∧
      (2 ≤ fuel →
       GetWorkflowStatesByTeamID states3 fuel ord teamID (newBulkCache fresh [])
       = Some ((sl, None), s1)) ∧
      readSlice sl (heap s1) = Some vs ∧
      client s1 = client s ∧ once s1 = once s ∧
      items s1 = items s ∧ err s1 = err s ∧
      cached s1 = cached s ∧
      (∀ a v, heap s !! a = Some v → heap s1 !! a = Some v) ∧
      (∀ a, a ∈ sl → heap s !! a = None) ∧
      ∀ writes h2,
        sliceStores sl writes (heap s1) = Some h2 →
        cached (set_heap h2 s1) = cached s ∧
        (∀ a v, heap s !! a = Some v → h2 !! a = Some v) ∧
        ∀ fuel' ord', ∃ sl' s2 vs',
          GetWorkflowStatesByTeamID states3 fuel' ord' teamID (set_heap h2 s1)
          = Some ((sl', None), s2) ∧
          readSlice sl' (heap s2) = Some vs' ∧
          vs' ≡ₚ vs ∧
          (arrange ord' = arrange ord → vs' = vs) ∧
          cached s2 = cached s.
Proof.
  exact (scan_returns_copies (workflowStatesCategory states3) fresh []
           _ _ _ _ states3_Fetched).
Defined.

(** The scan on the example of the specification: owners T1, T1, T2. *)
Example scan_T1 :
  (GetWorkflowStatesByTeamID states3 2 inOrder "T1" (newBulkCache fresh []))
    ≫= (λ '((sl, e), s), vs ← readSlice sl (heap s); Some (vs, e))
  = Some ([todo; doing], None).
Proof. reflexivity. Qed.

Example scan_T1_backwards :
  (GetWorkflowStatesByTeamID states3 2 backwards "T1" (newBulkCache fresh []))
    ≫= (λ '((sl, e), s), vs ← readSlice sl (heap s); Some (vs, e))
  = Some ([doing; todo], None).
Proof. reflexivity. Qed.

Example scan_T3 :
  fst <$> GetWorkflowStatesByTeamID states3 2 inOrder "T3"
            (newBulkCache fresh [])
  = Some ([], None).
Proof. reflexivity. Qed.

(** The caller overwrites the first element of the slice it got; the
    cache still answers with the record as fetched. *)
Example scan_then_overwrite :
  ('((sl, _), s1) ← GetWorkflowStatesByTeamID states3 2 inOrder "T1"
                      (newBulkCache fresh []);
   h2 ← sliceStore sl 0 scratched (heap s1);
   '((p, _), s2) ← GetWorkflowState states3 0 "S1" (set_heap h2 s1);
   ws ← deref p (heap s2);
   mine ← readSlice sl (heap s2);
   Some (ws, mine))
  = Some (todo, [scratched; doing]).
Proof. reflexivity. Qed.

Example sticky_after_page_one :
  fst <$> GetLabel labelsFlaky 2 "L1" (newBulkCache fresh [])
  = Some (NilPtr, Some (RemoteError "502 Bad Gateway")).
Proof. reflexivity. Qed.

Example team_lookup_by_key :
  ('((p, e), s) ← GetTeamByKey teams2 2 "OPS" (newBulkCache fresh []);
   Some (deref p (heap s), e))
  = Some (Some ops, None).
Proof. reflexivity. Qed.

(** The identifier of a team is not a key of the teams mapping. *)
Example team_lookup_by_id :
  fst <$> GetTeamByKey teams2 2 "T2" (newBulkCache fresh [])
  = Some (NilPtr, Some (Errorf "team not found in bulk cache: T2")).
Proof. reflexivity. Qed.

Example workflow_state_lookup :
  ('((p, e), s) ← GetWorkflowState states3 2 "S2" (newBulkCache fresh []);
   Some (deref p (heap s), e))
  = Some (Some doing, None).
Proof. reflexivity. Qed.

Example templates_lookup :
  ('((p, e), s) ← GetTemplate templates2 0 "TPL2" (newBulkCache fresh []);
   Some (deref p (heap s), e, calls (client s)))
  = Some (Some rfc, None, [ListAll]).
Proof. reflexivity. Qed.

Example templates_failure :
  GetTemplate templatesDown 0 "TPL2" (newBulkCache fresh [])
  = Some ((NilPtr, Some (RemoteError "connection refused")),
          mkState (mkClient 1 [ListAll]) [] true None
                  (Some (RemoteError "connection refused"))).
Proof. reflexivity. Qed.

End MoreWitnesses.

(** * Concurrent first use *)

Section StepLemmas.
Context {World T : Type}.
Implicit Types (s : State World T) (c : Category World T).

Lemma mergeNodes_frame c nodes s s' :
  mergeNodes c nodes s = Some s' →
  client s' = client s ∧ once s' = once s ∧ err s' = err s.
Proof.
  revert s. induction nodes as [|v nodes IH]; intros s; simpl.
  - by intros [= <-].
  - destruct (mapAssign (key c v) _ (items s)) as [m|]; [|done]. simpl.
    intros Hm. by apply IH in Hm.
Qed.

Lemma pageStep_frame c listPage cursor s ctl s1 :
  pageStep c listPage cursor s = Some (ctl, s1) →
  once s1 = once s ∧
  calls (client s1) = calls (client s) ++ [ListPage cursor].
Proof.
  unfold pageStep, callPage.
  destruct (listPage cursor (world (client s))) as [[resp e] w].
  destruct e as [e|]; simpl.
  - by intros [= <- <-].
  - destruct (mergeNodes c (Nodes resp) _) as [s2|] eqn:Hm; [|done]. simpl.
    apply mergeNodes_frame in Hm as (Hcl & Ho & _). simpl in *.
    destruct (HasNextPage (PageInfoOf resp)); intros [= <- <-];
      by rewrite Hcl, Ho.
Qed.

Lemma pageLoop_unfold c listPage n cursor s s' :
  pageLoop c listPage n cursor s = Some s' →
  ∃ n' ctl s1,
    n = S n' ∧ pageStep c listPage cursor s = Some (ctl, s1) ∧
    match ctl with
    | Continue cursor' => pageLoop c listPage n' cursor' s1 = Some s'
    | Break | Return => s1 = s'
    end.
Proof.
  destruct n as [|n']; [done|]. simpl.
  destruct (pageStep c listPage cursor s) as [[ctl s1]|]; [|done]. simpl.
  intros Hl. exists n', ctl, s1. split; [done|]. split; [done|].
  destruct ctl; [done|by injection Hl..].
Qed.

Lemma pageLoop_calls c listPage n cursor s s' :
  pageLoop c listPage n cursor s = Some s' →
  once s' = once s ∧
  ∃ more, calls (client s') = calls (client s) ++ ListPage cursor :: more.
Proof.
  revert cursor s. induction n as [|n IH]; intros cursor s Hl; [done|].
  apply pageLoop_unfold in Hl as (n' & ctl & s1 & [= <-] & Hs & Hc).
  apply pageStep_frame in Hs as [Ho Hcalls].
  destruct ctl as [cursor'| |].
  - apply IH in Hc as (Ho' & more & Hm). split; [congruence|].
    exists (ListPage cursor' :: more). rewrite Hm, Hcalls.
    by rewrite <-app_assoc.
  - subst s'. split; [done|]. exists []. done.
  - subst s'. split; [done|]. exists []. done.
Qed.

Lemma sum_list_with_ext_in {A} (f g : A → nat) (l : list A) :
  (∀ x, x ∈ l → f x = g x) → sum_list_with f l = sum_list_with g l.
Proof.
  induction l as [|a l IH]; intros Hfg; simpl; [done|].
  rewrite Hfg by by left. rewrite IH; [done|].
  intros x Hx. apply Hfg. by right.
Qed.

End StepLemmas.

Section ExactlyOnce.
Context {World T : Type}.
Variables (c : Category World T) (cl : Client World) (h : list T).
Variables (reqs : list Request) (pages : list (list T)).
Variables (o : option error) (w' : World).
Hypothesis HF : Fetched (fetch c) (world cl) reqs pages o w'.

Local Abbreviation F := (newBulkCache cl h).
Local Abbreviation Tm := (terminal c cl h reqs pages o w').
Local Abbreviation total := (length (calls cl ++ reqs)).
Local Abbreviation len := (length reqs).
Implicit Types (cfg : Config World T) (s : State World T).

Lemma populate_Tm :
  ∃ s', populate c len F = Some s' ∧ set_once true s' = Tm.
Proof using HF.
  pose proof (ensure_Fetched c cl h reqs pages o w' HF len (le_n _)) as He.
  unfold ensure, Do in He. simpl in He.
  destruct (populate c len F) as [s'|]; [|done].
  simpl in He. exists s'. split; [done|]. by apply (inj Some).
Qed.

Lemma wholeList_frame listAll s s' :
  wholeList c listAll s = Some s' → once s' = once s.
Proof.
  unfold wholeList, callAll.
  destruct (listAll (world (client s))) as [[nodes e] w].
  destruct e as [e|]; simpl; [by intros [= <-]|].
  intros Hm. by apply mergeNodes_frame in Hm as (_ & Ho & _).
Qed.

Lemma Inv_initial ks : Inv c F Tm (initial cl h ks).
Proof.
  split; [done|]. split; [done|]. split; [done|].
  intros j k pc Hj. unfold initial in Hj. simpl in Hj.
  rewrite list_lookup_fmap in Hj. destruct (ks !! j); by simplify_eq/=.
Qed.

(** What a step of goroutine [i] has to establish. *)
Lemma Inv_update cfg i k pc pc' s' m' :
  Inv c F Tm cfg →
  threads cfg !! i = Some (k, pc) →
  (once s' = true → s' = Tm) →
  (m' = None → once s' = false → s' = F) →
  (isInside pc' = true ↔ m' = Some i) →
  pcOk c F Tm s' k pc' →
  (∀ j, j ≠ i → m' = Some j → mu cfg = Some j) →
  (∀ j k0 pc0, j ≠ i → threads cfg !! j = Some (k0, pc0) →
     (isInside pc0 = true → m' = Some j) ∧ pcOk c F Tm s' k0 pc0) →
  Inv c F Tm (mkConfig s' m' (<[i := (k, pc')]> (threads cfg))).
Proof.
  intros (G1 & G2 & G3 & GT) Hi H1 H2 Hiff Hok HO1 HO2.
  assert (i < length (threads cfg)) as Hlt by (by eapply lookup_lt_Some).
  split; [done|]. split; [done|]. simpl. split.
  - intros j Hj. destruct (decide (j = i)) as [->|Hne].
    + exists k, pc'. rewrite list_lookup_insert_eq by done.
      split; [done|]. by apply Hiff.
    + rewrite list_lookup_insert_ne by done. apply G3. by apply HO1.
  - intros j k0 pc0. destruct (decide (j = i)) as [->|Hne].
    + rewrite list_lookup_insert_eq by done. intros [= <- <-].
      split; [apply Hiff|done].
    + rewrite list_lookup_insert_ne by done. by apply HO2.
Qed.

Lemma others_same cfg i m' :
  Inv c F Tm cfg →
  m' = mu cfg ∨ mu cfg = None ∨ mu cfg = Some i →
  ∀ j k0 pc0, j ≠ i → threads cfg !! j = Some (k0, pc0) →
    (isInside pc0 = true → m' = Some j) ∧ pcOk c F Tm (shared cfg) k0 pc0.
Proof.
  intros (_ & _ & _ & GT) Hm j k0 pc0 Hne Hj.
  destruct (GT j k0 pc0 Hj) as [Hin Hok]. split; [|done].
  intros Hins. specialize (Hin Hins).
  destruct Hm as [->|[Hm|Hm]]; [done|congruence..].
Qed.

Lemma others_holder cfg i s' m' :
  Inv c F Tm cfg →
  mu cfg = Some i → once (shared cfg) = false →
  ∀ j k0 pc0, j ≠ i → threads cfg !! j = Some (k0, pc0) →
    (isInside pc0 = true → m' = Some j) ∧ pcOk c F Tm s' k0 pc0.
Proof.
  intros (_ & _ & _ & GT) Hmu Honce j k0 pc0 Hne Hj.
  destruct (GT j k0 pc0 Hj) as [Hin Hok].
  assert (isInside pc0 = false) as Hout.
  { destruct (isInside pc0) eqn:Hins; [|done].
    specialize (Hin eq_refl). congruence. }
  split; [by rewrite Hout|].
  destruct pc0; simpl in *; try done; try congruence.
  destruct Hok as [Hok _]. congruence.
Qed.

Lemma holder_inside cfg i k pc :
  Inv c F Tm cfg → threads cfg !! i = Some (k, pc) →
  mu cfg = Some i → isInside pc = true.
Proof.
  intros (_ & _ & G3 & _) Hi Hmu.
  destruct (G3 i Hmu) as (k' & pc'' & Hi' & Hins). congruence.
Qed.

Lemma Inv_step cfg i cfg' :
  Inv c F Tm cfg → step c i cfg = Some cfg' → Inv c F Tm cfg'.
Proof using HF.
  intros HI. pose proof HI as (G1 & G2 & G3 & GT). unfold step.
  destruct (threads cfg !! i) as [[k pc]|] eqn:Hi; simpl; [|done].
  destruct (threadStep c i k pc (shared cfg) (mu cfg))
    as [[[pc' s'] m']|] eqn:Hts; simpl; [|done].
  intros [= <-]. destruct (GT i k pc Hi) as [Hin Hok].
  pose proof (holder_inside cfg i k pc HI Hi) as Hhold.
  destruct pc; simpl in *.
  - (* Enter *)
    injection Hts as <- <- <-.
    apply (Inv_update cfg i k Enter); [done|done|done|done| | | |].
    + split; [by destruct (once (shared cfg))|].
      intros Hm. by specialize (Hhold Hm).
    + by destruct (once (shared cfg)) eqn:Ho.
    + done.
    + apply others_same; [done|by left].
  - (* Lock *)
    destruct (mu cfg) as [j0|] eqn:Hmu; [done|]. injection Hts as <- <- <-.
    apply (Inv_update cfg i k Lock); [done|done|done|done|done| | |].
    + simpl. by apply G2.
    + intros j Hne [= ->]. done.
    + apply others_same; [done|]. right. by left.
  - (* Recheck *)
    injection Hts as <- <- <-. specialize (Hin eq_refl).
    apply (Inv_update cfg i k Recheck); [done|done|done| | | |done|].
    + intros Hm. congruence.
    + by destruct (once (shared cfg)).
    + destruct (once (shared cfg)) eqn:Ho; simpl; [done|]. by apply Hok.
    + apply others_same; [done|by left].
  - (* Begin *)
    specialize (Hin eq_refl). destruct populate_Tm as (sp & Hp & Hsp).
    unfold populate in Hp. rewrite <-Hok in Hp.
    destruct (fetch c) as [listPage|listAll] eqn:Hf.
    + injection Hts as <- <- <-.
      apply (Inv_update cfg i k Begin); [done|done| | |done| |done|].
      * simpl. by rewrite Hok.
      * intros Hm. congruence.
      * simpl. split; [by rewrite Hok|]. by exists listPage, len, sp.
      * apply others_holder; [done|done|by rewrite Hok].
    + rewrite Hp in Hts. simpl in Hts. injection Hts as <- <- <-.
      pose proof (wholeList_frame _ _ _ Hp) as Ho.
      rewrite Hok in Ho. simpl in Ho.
      apply (Inv_update cfg i k Begin); [done|done| | |done|done|done|].
      * intros Ho'. congruence.
      * intros Hm. congruence.
      * apply others_holder; [done|done|by rewrite Hok].
  - (* Page *)
    specialize (Hin eq_refl).
    destruct Hok as (Ho & listPage & n & sp & Hf & Hl & Hsp).
    rewrite Hf in Hts.
    apply pageLoop_unfold in Hl as (n' & ctl & s1 & -> & Hps & Hc).
    rewrite Hps in Hts. simpl in Hts. injection Hts as <- <- <-.
    apply pageStep_frame in Hps as [Ho1 _].
    apply (Inv_update cfg i k (Page cursor)); [done|done| | | | |done|].
    + intros Ho'. congruence.
    + intros Hm. congruence.
    + by destruct ctl.
    + destruct ctl as [cursor'| |]; simpl.
      * split; [congruence|]. by exists listPage, n', sp.
      * subst sp. split; [congruence|done].
      * subst sp. split; [congruence|done].
    + by apply others_holder.
  - (* Finish *)
    injection Hts as <- <- <-. specialize (Hin eq_refl).
    destruct Hok as [Ho Heq].
    apply (Inv_update cfg i k Finish); [done|done|done| |done|done|done|].
    + intros Hm. congruence.
    + by apply others_holder.
  - (* Unlock *)
    injection Hts as <- <- <-. specialize (Hin eq_refl).
    apply (Inv_update cfg i k Unlock); [done|done|done| |done|done|done|].
    + intros _ Ho. congruence.
    + apply others_same; [done|]. right. by right.
  - (* Serve *)
    injection Hts as <- <- <-.
    apply (Inv_update cfg i k Serve); [done|done|done|done| | |done|].
    + split; [done|]. intros Hm. by specialize (Hhold Hm).
    + simpl. split; [done|]. by rewrite (G1 Hok).
    + apply others_same; [done|by left].
  - (* Done *)
    done.
Qed.

Lemma Inv_rtc cfg cfg' :
  Inv c F Tm cfg → rtc (Step c) cfg cfg' → Inv c F Tm cfg'.
Proof using HF.
  intros HI Hr. induction Hr as [|cfg1 cfg2 cfg3 [i Hs] _ IH]; [done|].
  apply IH. by eapply Inv_step.
Qed.

Lemma Inv_progress cfg j k pc :
  Inv c F Tm cfg →
  threads cfg !! j = Some (k, pc) → returned pc = false →
  ∃ i cfg', step c i cfg = Some cfg'.
Proof using HF.
  intros HI Hj Hret. pose proof HI as (G1 & G2 & G3 & GT).
  destruct (mu cfg) as [j0|] eqn:Hmu.
  - (* the holder of the mutex can move *)
    destruct (G3 j0 eq_refl) as (k0 & pc0 & Hj0 & Hins).
    destruct (GT j0 k0 pc0 Hj0) as [_ Hok].
    exists j0. unfold step. rewrite Hj0. simpl.
    destruct pc0; simpl in *; try done; try by eexists.
    + destruct populate_Tm as (sp & Hp & _). unfold populate in Hp.
      rewrite <-Hok in Hp. destruct (fetch c); [by eexists|].
      rewrite Hp. by eexists.
    + destruct Hok as (_ & listPage & n & sp & Hf & Hl & _). rewrite Hf.
      apply pageLoop_unfold in Hl as (n' & ctl & s1 & _ & Hps & _).
      rewrite Hps. by eexists.
  - (* the mutex is free: whoever has not returned can move *)
    destruct (GT j k pc Hj) as [Hin _].
    exists j. unfold step. rewrite Hj. simpl. rewrite Hmu.
    destruct pc; simpl in *; try done; try by eexists.
    all: by specialize (Hin eq_refl).
Qed.

Lemma sum_list_with_ext_lookup {A} (f g : A → nat) (l : list A) :
  (∀ j x, l !! j = Some x → f x = g x) →
  sum_list_with f l = sum_list_with g l.
Proof.
  intros Hfg. apply sum_list_with_ext_in. intros x Hx.
  apply list_elem_of_lookup in Hx as [j Hj]. by eapply Hfg.
Qed.

Lemma sum_list_with_insert_lt {A} (f g : A → nat) (l : list A) i x y :
  l !! i = Some x →
  (∀ j t, j ≠ i → l !! j = Some t → g t = f t) →
  g y < f x →
  sum_list_with g (<[i := y]> l) < sum_list_with f l.
Proof.
  revert i. induction l as [|a l IH]; intros [|i] Hi Hfg Hlt; simpl;
    try done.
  - injection Hi as ->.
    rewrite (sum_list_with_ext_lookup g f l); [lia|].
    intros j t Hj. apply (Hfg (S j)); [lia|done].
  - rewrite (Hfg 0 a) by done.
    enough (sum_list_with g (<[i := y]> l) < sum_list_with f l) by lia.
    apply (IH i); [done| |done].
    intros j t Hne Hj. apply (Hfg (S j)); [lia|done].
Qed.

(** A thread other than the holder does not stand in the page loop. *)
Lemma others_rank cfg i rem rem' :
  Inv c F Tm cfg → mu cfg = Some i →
  ∀ j t, j ≠ i → threads cfg !! j = Some t →
         rank len rem' t.2 = rank len rem t.2.
Proof.
  intros (_ & _ & _ & GT) Hmu j [k0 pc0] Hne Hj.
  destruct (GT j k0 pc0 Hj) as [Hin _]. simpl.
  destruct pc0; simpl in *; try done.
  specialize (Hin eq_refl). congruence.
Qed.

Lemma calls_Tm : calls (client Tm) = calls cl ++ reqs.
Proof. done. Qed.

(** Every step uses up some of the measure. *)
Lemma measure_step cfg i cfg' :
  Inv c F Tm cfg → step c i cfg = Some cfg' →
  measure total len cfg' < measure total len cfg.
Proof using HF.
  intros HI. pose proof HI as (G1 & G2 & G3 & GT). unfold step, measure.
  destruct (threads cfg !! i) as [[k pc]|] eqn:Hi; simpl; [|done].
  destruct (threadStep c i k pc (shared cfg) (mu cfg))
    as [[[pc' s'] m']|] eqn:Hts; simpl; [|done].
  intros [= <-]. simpl. destruct (GT i k pc Hi) as [Hin Hok].
  destruct pc; simpl in *.
  - injection Hts as <- <- <-.
    eapply sum_list_with_insert_lt; [done|done|].
    simpl. destruct (once (shared cfg)); simpl; lia.
  - destruct (mu cfg); [done|]. injection Hts as <- <- <-.
    eapply sum_list_with_insert_lt; [done|done|]. simpl. lia.
  - injection Hts as <- <- <-.
    eapply sum_list_with_insert_lt; [done|done|].
    simpl. destruct (once (shared cfg)); simpl; lia.
  - specialize (Hin eq_refl). destruct (fetch c) as [listPage|listAll].
    + injection Hts as <- <- <-.
      eapply sum_list_with_insert_lt; [done|done|].
      simpl. rewrite Hok. simpl. rewrite length_app. lia.
    + destruct (wholeList c listAll (shared cfg)) as [s1|]; [|done].
      simpl in Hts. injection Hts as <- <- <-.
      eapply sum_list_with_insert_lt; [done| |simpl; lia].
      by apply others_rank.
  - specialize (Hin eq_refl).
    destruct Hok as (Ho & listPage & n & sp & Hf & Hl & Hsp).
    rewrite Hf in Hts.
    pose proof (pageLoop_calls _ _ _ _ _ _ Hl) as (_ & more & Hmore).
    assert (calls (client sp) = calls cl ++ reqs) as Hsp'.
    { rewrite <-calls_Tm, <-Hsp. done. }
    apply pageLoop_unfold in Hl as (n' & ctl & s1 & -> & Hps & Hc).
    rewrite Hps in Hts. simpl in Hts. injection Hts as <- <- <-.
    apply pageStep_frame in Hps as [_ Hcalls].
    eapply sum_list_with_insert_lt; [done|by apply others_rank|].
    rewrite Hcalls, <-Hsp', Hmore, !length_app. simpl.
    destruct ctl; simpl; lia.
  - injection Hts as <- <- <-.
    eapply sum_list_with_insert_lt; [done|done|]. simpl. lia.
  - injection Hts as <- <- <-.
    eapply sum_list_with_insert_lt; [done|done|]. simpl. lia.
  - injection Hts as <- <- <-.
    eapply sum_list_with_insert_lt; [done|done|]. simpl. lia.
  - done.
Qed.

Lemma measure_initial ks :
  measure total len (initial cl h ks) = length ks * (7 + len).
Proof.
  unfold measure, initial. simpl.
  generalize (length (calls cl ++ reqs) - length (calls cl)). intros rem.
  induction ks as [|k ks IH]; [done|].
  rewrite fmap_cons. cbn [sum_list_with]. rewrite IH. simpl. lia.
Qed.

Lemma measure_nsteps n cfg cfg' :
  Inv c F Tm cfg → nsteps (Step c) n cfg cfg' →
  n + measure total len cfg' ≤ measure total len cfg.
Proof using HF.
  intros HI Hn. induction Hn as [|n cfg1 cfg2 cfg3 [i Hs] _ IH]; [done|].
  pose proof (measure_step _ _ _ HI Hs).
  specialize (IH (Inv_step _ _ _ HI Hs)). lia.
Qed.

(** The requests sent so far are the first requests of the traversal. *)
Lemma Inv_calls cfg :
  Inv c F Tm cfg →
  calls (client (shared cfg)) `prefix_of` calls cl ++ reqs.
Proof.
  intros (G1 & G2 & G3 & GT).
  destruct (once (shared cfg)) eqn:Ho.
  { rewrite (G1 eq_refl). done. }
  destruct (mu cfg) as [j0|] eqn:Hmu.
  - destruct (G3 j0 eq_refl) as (k0 & pc0 & Hj0 & Hins).
    destruct (GT j0 k0 pc0 Hj0) as [_ Hok].
    destruct pc0; simpl in *; try done.
    + rewrite (Hok Ho). by apply prefix_app_r.
    + rewrite Hok. by apply prefix_app_r.
    + destruct Hok as (_ & listPage & n & sp & Hf & Hl & Hsp).
      apply pageLoop_calls in Hl as (_ & more & Hmore).
      rewrite <-calls_Tm, <-Hsp. simpl. rewrite Hmore.
      by apply prefix_app_r.
    + destruct Hok as (_ & Hsp). rewrite <-calls_Tm, <-Hsp. done.
    + congruence.
  - rewrite (G2 eq_refl eq_refl). by apply prefix_app_r.
Qed.

Lemma Inv_pastGate cfg j k pc :
  Inv c F Tm cfg →
  threads cfg !! j = Some (k, pc) → pastGate pc = true →
  shared cfg = Tm ∧ ∀ r, pc = Done r → r = serve c k Tm.
Proof.
  intros (G1 & _ & _ & GT) Hj Hp. destruct (GT j k pc Hj) as [_ Hok].
  destruct pc; simpl in *; try done.
  - split; [by apply G1|done].
  - destruct Hok as [Ho ->]. split; [by apply G1|]. by intros r' [= <-].
Qed.

Lemma step_keys cfg i cfg' :
  step c i cfg = Some cfg' → (threads cfg').*1 = (threads cfg).*1.
Proof.
  unfold step.
  destruct (threads cfg !! i) as [[k pc]|] eqn:Hi; simpl; [|done].
  destruct (threadStep c i k pc (shared cfg) (mu cfg))
    as [[[pc' s'] m']|]; simpl; [|done].
  intros [= <-]. simpl. rewrite list_fmap_insert. simpl.
  apply list_insert_id. by rewrite list_lookup_fmap, Hi.
Qed.

Lemma rtc_keys cfg cfg' :
  rtc (Step c) cfg cfg' → (threads cfg').*1 = (threads cfg).*1.
Proof.
  induction 1 as [|cfg1 cfg2 cfg3 [i Hs] _ IH]; [done|].
  rewrite IH. by eapply step_keys.
Qed.

End ExactlyOnce.

Section ExactlyOnceTheorem.
Context {World T : Type}.
Implicit Types (c : Category World T) (cl : Client World) (h : list T).

(** C4 (exactly-once fetch).  Let any number of goroutines look up keys of
    one category on a new cache, and let [s] be the state that one run of
    the category's populate routine leaves.  Then, however the goroutines
    are scheduled: the requests sent at any moment are the first requests of
    that one traversal, never more; a goroutine is past the gate only when
    the shared state is [s], that is when the traversal has been completed,
    all its requests sent once; a goroutine that has returned has returned
    what a lookup in [s] returns; as long as some goroutine has not
    returned, some goroutine can take a step; and no execution is longer
    than a bound fixed by the numbers of goroutines and of requests, so
    every goroutine returns. *)
Theorem exactly_once_fetch c cl h reqs pages o w' ks :
  Fetched (fetch c) (world cl) reqs pages o w' →
  ∃ s,
    (∀ fuel, length reqs ≤ fuel →
       ensure c fuel (newBulkCache cl h) = Some s) ∧
    calls (client s) = calls cl ++ reqs ∧
    (∀ cfg, rtc (Step c) (initial cl h ks) cfg →
       (threads cfg).*1 = ks ∧
       calls (client (shared cfg)) `prefix_of` calls cl ++ reqs ∧
       (∀ j k pc, threads cfg !! j = Some (k, pc) → pastGate pc = true →
                  shared cfg = s) ∧
       (∀ j k r, threads cfg !! j = Some (k, Done r) →
                 ∀ fuel, GetByKey c fuel k s = Some (r, s)) ∧
       (∀ j k pc, threads cfg !! j = Some (k, pc) → returned pc = false →
                  ∃ i cfg', step c i cfg = Some cfg')) ∧
    (∀ n cfg, nsteps (Step c) n (initial cl h ks) cfg →
              n ≤ length ks * (7 + length reqs)).
Proof.
  intros HF. exists (terminal c cl h reqs pages o w').
  split; [by apply ensure_Fetched|]. split; [done|]. split.
  - intros cfg Hr.
    pose proof (Inv_rtc c cl h reqs pages o w' HF _ _
                  (Inv_initial c cl h reqs pages o w' ks) Hr) as HI.
    split; [|split; [|split; [|split]]].
    + rewrite (rtc_keys c _ _ Hr). unfold initial. simpl.
      rewrite <-list_fmap_compose. apply list_fmap_id.
    + exact (Inv_calls c cl h reqs pages o w' cfg HI).
    + intros j k pc Hj Hp.
      by destruct (Inv_pastGate c cl h reqs pages o w' cfg j k pc HI Hj Hp).
    + intros j k r Hj fuel.
      destruct (Inv_pastGate c cl h reqs pages o w' cfg j k _ HI Hj eq_refl)
        as [_ Hr'].
      rewrite GetByKey_done by done. by rewrite (Hr' r eq_refl).
    + intros j k pc Hj Hret.
      exact (Inv_progress c cl h reqs pages o w' HF cfg j k pc HI Hj Hret).
  - intros n cfg Hn.
    pose proof (measure_nsteps c cl h reqs pages o w' HF n _ _
                  (Inv_initial c cl h reqs pages o w' ks) Hn) as Hm.
    rewrite measure_initial in Hm. lia.
Qed.

End ExactlyOnceTheorem.

Section ExactlyOnceWitness.
Import Mock.

Lemma exactly_once_fetch_witness :
  ∃ s,
    (∀ fuel, 3 ≤ fuel →
       ensureLabels labels3 fuel (newBulkCache fresh []) = Some s) ∧
    calls (client s)
    = [ListPage None; ListPage (Some "A"); ListPage (Some "B")] ∧
    (∀ cfg, rtc (Step (labelsCategory labels3)) (initial fresh [] racers) cfg →
       (threads cfg).*1 = racers ∧
       calls (client (shared cfg))
         `prefix_of` [ListPage None; ListPage (Some "A"); ListPage (Some "B")] ∧
       (∀ j k pc, threads cfg !! j = Some (k, pc) → pastGate pc = true →
                  shared cfg = s) ∧
       (∀ j k r, threads cfg !! j = Some (k, Done r) →
                 ∀ fuel, GetLabel labels3 fuel k s = Some (r, s)) ∧
       (∀ j k pc, threads cfg !! j = Some (k, pc) → returned pc = false →
                  ∃ i cfg', step (labelsCategory labels3) i cfg = Some cfg')) ∧
    (∀ n cfg,
       nsteps (Step (labelsCategory labels3)) n (initial fresh [] racers) cfg →
       n ≤ 3 * (7 + 3)).
Proof.
  exact (exactly_once_fetch (labelsCategory labels3) fresh [] _ _ _ _ racers
           labels3_Fetched).
Defined.

(** The three goroutines under [schedule]: one traversal, three results. *)
Example race_run :
  (λ cfg, (calls (client (shared cfg)), mu cfg, threads cfg))
    <$> run (labelsCategory labels3) schedule (initial fresh [] racers)
  = Some ([ListPage None; ListPage (Some "A"); ListPage (Some "B")],
          None,
          [("L1", Done (Ptr 0, None));
           ("L9", Done (NilPtr,
                        Some (Errorf "label not found in bulk cache: L9")));
           ("L3", Done (Ptr 2, None))]).
Proof. reflexivity. Qed.

(** While the second goroutine holds the mutex, the first one is blocked. *)
Example race_blocked :
  run (labelsCategory labels3) [0; 1; 1; 0] (initial fresh [] racers) = None.
Proof. reflexivity. Qed.

(** With a failing remote every racer gets the one stored error. *)
Example race_failure :
  threads
    <$> run (labelsCategory labelsFlaky)
          [0; 1; 1; 2; 1; 1; 1; 1; 1; 1; 0; 0; 0; 2; 2; 2; 0; 1; 2]
          (initial fresh [] racers)
  = Some [("L1", Done (NilPtr, Some (RemoteError "502 Bad Gateway")));
          ("L9", Done (NilPtr, Some (RemoteError "502 Bad Gateway")));
          ("L3", Done (NilPtr, Some (RemoteError "502 Bad Gateway")))].
Proof. reflexivity. Qed.

End ExactlyOnceWitness.

(** * Further properties of the populate routine *)

Section PopulateProperties.
Context {World T : Type}.
Implicit Types (s : State World T) (c : Category World T).
Implicit Types (cl : Client World) (h : list T).

(** X1.  The populate routine returns exactly when the listing of the
    category ends, be it with a page that announces no further page or
    with an error; and what it then leaves does not depend on how long the
    loop was allowed to run. *)
Theorem populate_returns_iff_listing_ends c cl h :
  ((∃ fuel s, ensure c fuel (newBulkCache cl h) = Some s) ↔
   (∃ reqs pages o w', Fetched (fetch c) (world cl) reqs pages o w')) ∧
  (∀ fuel1 fuel2 s1 s2,
     ensure c fuel1 (newBulkCache cl h) = Some s1 →
     ensure c fuel2 (newBulkCache cl h) = Some s2 → s1 = s2).
Proof.
  split; [split|].
  - intros (fuel & s & He).
    apply ensure_inv in He as (reqs & pages & o & w' & HF & _).
    by exists reqs, pages, o, w'.
  - intros (reqs & pages & o & w' & HF). eexists (length reqs), _.
    by apply ensure_Fetched.
  - intros fuel1 fuel2 s1 s2 H1 H2.
    apply ensure_inv in H1 as (reqs1 & pages1 & o1 & w1 & HF1 & _ & ->).
    apply ensure_inv in H2 as (reqs2 & pages2 & o2 & w2 & HF2 & _ & ->).
    pose proof (ensure_Fetched c cl h _ _ _ _ HF1
                  (length reqs1 `max` length reqs2)) as E1.
    pose proof (ensure_Fetched c cl h _ _ _ _ HF2
                  (length reqs1 `max` length reqs2)) as E2.
    rewrite E1 in E2 by lia. apply (inj Some). apply E2. lia.
Qed.

Lemma pageLoop_endless c
    (listPage : option string → World → Connection T * option error * World) :
  (∀ cursor w, (listPage cursor w).1.2 = None ∧
               HasNextPage (PageInfoOf (listPage cursor w).1.1) = true) →
  ∀ cursor s, is_Some (items s) →
    ∃ s', pageStep c listPage cursor s
          = Some (Continue (Some (EndCursor (PageInfoOf
                    (listPage cursor (world (client s))).1.1))), s') ∧
          is_Some (items s') ∧
          calls (client s') = calls (client s) ++ [ListPage cursor].
Proof.
  intros Hend cursor s [g Hg]. unfold pageStep, callPage.
  destruct (Hend cursor (world (client s))) as [He Hn].
  destruct (listPage cursor (world (client s))) as [[resp e] w].
  simpl in *. subst e.
  erewrite mergeNodes_Some by (simpl; done). simpl. rewrite Hn.
  eexists. split; [done|]. simpl. split; [by eexists|done].
Qed.

(** X2.  The page loop has no bound of its own: against a remote whose
    every page comes without error and announces a next page, each turn of
    the loop sends one more request, merges the page and goes on, so that
    neither [ensure] nor a lookup ever returns. *)
Theorem endless_listing_never_returns c listPage cl h :
  fetch c = Paged listPage →
  (∀ cursor w, (listPage cursor w).1.2 = None ∧
               HasNextPage (PageInfoOf (listPage cursor w).1.1) = true) →
  (∀ cursor s, is_Some (items s) →
     ∃ cursor' s', pageStep c listPage cursor s = Some (Continue cursor', s') ∧
                   is_Some (items s') ∧
                   calls (client s') = calls (client s) ++ [ListPage cursor]) ∧
  (∀ fuel, ensure c fuel (newBulkCache cl h) = None) ∧
  (∀ fuel k, GetByKey c fuel k (newBulkCache cl h) = None).
Proof.
  intros Hf Hend.
  assert (∀ fuel cursor s, is_Some (items s) →
            pageLoop c listPage fuel cursor s = None) as Hloop.
  { induction fuel as [|fuel IH]; intros cursor s Hs; [done|]. simpl.
    destruct (pageLoop_endless c listPage Hend cursor s Hs)
      as (s' & -> & Hs' & _).
    simpl. by apply IH. }
  assert (∀ fuel, ensure c fuel (newBulkCache cl h) = None) as He.
  { intros fuel. unfold ensure, Do, populate. simpl. rewrite Hf.
    rewrite Hloop; [done|]. simpl. by eexists. }
  split; [|split; [done|]].
  - intros cursor s Hs.
    destruct (pageLoop_endless c listPage Hend cursor s Hs) as (s' & ? & ? & ?).
    by eexists _, s'.
  - intros fuel k. unfold GetByKey. by rewrite He.
Qed.

(** X4.  In every state that the populate routine leaves, after a
    complete listing or after a failure in the middle of one, each entry of
    the mapping is a non-nil pointer to a cell that the routine itself
    allocated and that holds a record carrying the entry's key; no two
    keys share a cell; and the cells that existed before are as they
    were. *)
Theorem cache_entries_consistent c cl h fuel s :
  ensure c fuel (newBulkCache cl h) = Some s →
  (∃ more, heap s = h ++ more) ∧
  (∀ k p, mapIndex (items s) k = Some p →
     ∃ a r, p = Ptr a ∧ length h ≤ a ∧ heap s !! a = Some r ∧ key c r = k) ∧
  (∀ k1 k2 p, mapIndex (items s) k1 = Some p →
              mapIndex (items s) k2 = Some p → k1 = k2).
Proof.
  intros He. apply ensure_inv in He as (reqs & pages & o & w' & HF & _ & ->).
  assert (∀ k p, mapIndex (items (terminal c cl h reqs pages o w')) k = Some p →
     ∃ a r, p = Ptr a ∧ length h ≤ a ∧
            heap (terminal c cl h reqs pages o w') !! a = Some r ∧
            key c r = k) as Hentry.
  { intros k p Hp.
    assert (insertAll c (length h) (concat pages) ∅ !! k = Some p) as Hi.
    { unfold terminal in Hp. simpl in Hp.
      destruct (fetch c), o; simpl in Hp; done. }
    pose proof (insertAll_lookup c (length h) (concat pages) ∅ k) as Hl.
    destruct (lastWith c k (concat pages)) as [r|] eqn:Hr.
    - destruct Hl as (i & Hri & Hg). rewrite Hg in Hi. injection Hi as <-.
      exists (length h + i), r. split; [done|]. split; [lia|].
      split; [by rewrite heap_terminal_lookup|].
      by apply lastWith_Some in Hr as [? _].
    - by rewrite Hl, lookup_empty in Hi. }
  split; [by eexists|]. split; [done|].
  intros k1 k2 p H1 H2.
  destruct (Hentry k1 p H1) as (a1 & r1 & -> & _ & Hr1 & <-).
  destruct (Hentry k2 _ H2) as (a2 & r2 & [= <-] & _ & Hr2 & <-).
  congruence.
Qed.

(** X5.  A lookup hands out the cache's own cell, not a copy.  After a
    successful listing, let a caller assign [v] through the pointer that
    the lookup of [k] returned.  Then every later lookup of [k] returns the
    same pointer and finds [v] behind it, whatever key [v] carries: the
    mapping is not re-indexed, so that [v] is not found under its own key
    unless that key was cached before.  The records of the other keys are
    as they were. *)
Theorem lookup_returns_alias c cl h reqs pages w' k :
  Fetched (fetch c) (world cl) reqs pages None w' →
  k ∈ key c <$> concat pages →
  ∃ s a,
    (∀ fuel, length reqs ≤ fuel →
       ensure c fuel (newBulkCache cl h) = Some s) ∧
    (∀ fuel, GetByKey c fuel k s = Some ((Ptr a, None), s)) ∧
    ∀ v, ∃ h',
      ptrStore (Ptr a) v (heap s) = Some h' ∧
      (∀ fuel, GetByKey c fuel k (set_heap h' s)
               = Some ((Ptr a, None), set_heap h' s)) ∧
      deref (Ptr a) h' = Some v ∧
      cached (set_heap h' s) !! k = Some v ∧
      (∀ k', k' ≠ k → cached (set_heap h' s) !! k' = cached s !! k') ∧
      (key c v ∉ key c <$> concat pages →
       ∀ fuel, GetByKey c fuel (key c v) (set_heap h' s)
               = Some ((NilPtr, Some (notFound c (key c v))), set_heap h' s)).
Proof.
  intros HF Hk. set (s := terminal c cl h reqs pages None w').
  apply lastWith_is_Some in Hk as [r Hr].
  pose proof (insertAll_lookup_last c (length h) (concat pages) ∅ k) as Hl.
  rewrite Hr in Hl. destruct Hl as (i & Hi & Hg & _).
  assert (length h + i < length (heap s)) as Hlt.
  { simpl. rewrite length_app. apply lookup_lt_Some in Hi. lia. }
  exists s, (length h + i). split; [by apply ensure_Fetched|].
  assert (∀ h0 k0, serve c k0 (set_heap h0 s) = serve c k0 s) as Hserve by done.
  assert (serve c k s = (Ptr (length h + i), None)) as Hsk.
  { unfold serve. subst s. rewrite terminal_items_ok. simpl. by rewrite Hg. }
  split. { intros fuel. by rewrite GetByKey_done, Hsk. }
  intros v. exists (<[length h + i := v]> (heap s)).
  split; [|split; [|split; [|split; [|split]]]].
  - unfold ptrStore. by rewrite decide_True.
  - intros fuel. by rewrite GetByKey_done, Hserve, Hsk.
  - simpl. by apply list_lookup_insert_eq.
  - unfold cached. rewrite lookup_omap.
    change (items (set_heap _ s))
      with (items (terminal c cl h reqs pages None w')).
    rewrite terminal_items_ok.
    change (default ∅ (Some ?g)) with g. rewrite Hg. simpl.
    by apply list_lookup_insert_eq.
  - intros k' Hne. unfold cached. rewrite !lookup_omap.
    change (items (set_heap _ s))
      with (items (terminal c cl h reqs pages None w')).
    change (items s) with (items (terminal c cl h reqs pages None w')).
    rewrite terminal_items_ok.
    change (default ∅ (Some ?g)) with g.
    pose proof (insertAll_lookup c (length h) (concat pages) ∅ k') as Hl'.
    destruct (lastWith c k' (concat pages)) as [r'|] eqn:Hr'.
    + destruct Hl' as (i' & Hi' & ->). simpl.
      apply list_lookup_insert_ne. intros Heq.
      assert (i = i') as -> by lia. rewrite Hi in Hi'. injection Hi' as ->.
      apply lastWith_Some in Hr as [Hk1 _].
      apply lastWith_Some in Hr' as [Hk2 _]. congruence.
    + by rewrite Hl', lookup_empty.
  - intros Hnew fuel. rewrite GetByKey_done by done. rewrite Hserve.
    apply lastWith_None in Hnew.
    pose proof (serve_populated c cl h reqs pages w' (key c v)) as Hs.
    rewrite Hnew in Hs. fold s in Hs. by rewrite Hs.
Qed.

End PopulateProperties.

Section TemplateProperties.
Context {World : Type}.

(** X3.  [ensureTemplates] has no loop: whatever the remote answers, it
    returns after exactly one request, with the gate fired and the answer's
    error in the error slot.  The map is made only when the request
    succeeded -- it then has the identifiers of the templates received as
    its keys -- and is left nil, with no cell allocated, when the request
    failed; the lookups that follow a failure read the error, never the nil
    map. *)
Theorem ensureTemplates_one_request
    (listAllTemplates : World → list Template * option error * World)
    (cl : Client World) (h : list Template) (fuel : nat) :
  ∃ s,
    ensureTemplates listAllTemplates fuel (newBulkCache cl h) = Some s ∧
    once s = true ∧
    client s = mkClient (listAllTemplates (world cl)).2
                        (calls cl ++ [ListAll]) ∧
    err s = (listAllTemplates (world cl)).1.2 ∧
    match (listAllTemplates (world cl)).1.2 with
    | Some e =>
        items s = None ∧ heap s = h ∧
        ∀ fuel' id, GetTemplate listAllTemplates fuel' id s
                    = Some ((NilPtr, Some e), s)
    | None =>
        heap s = h ++ (listAllTemplates (world cl)).1.1 ∧
        ∃ g, items s = Some g ∧
             dom g = list_to_set
                       (Template_Id <$> (listAllTemplates (world cl)).1.1)
    end.
Proof.
  unfold ensureTemplates, GetTemplate, ensure, Do, populate. simpl.
  unfold wholeList, callAll. simpl.
  destruct (listAllTemplates (world cl)) as [[nodes e] w]. simpl.
  destruct e as [e|]; simpl.
  - eexists. split; [done|]. simpl. do 3 (split; [done|]).
    split; [done|]. split; [done|]. intros fuel' id.
    by rewrite GetByKey_done.
  - erewrite mergeNodes_Some by done. simpl.
    eexists. split; [done|]. simpl. do 3 (split; [done|]).
    split; [done|]. eexists. split; [done|].
    rewrite insertAll_dom, dom_empty_L. by rewrite (left_id_L ∅ (∪)).
Qed.

End TemplateProperties.

(** * Sequences of calls *)

Section SequenceProperties.
Context {World T : Type}.
Implicit Types (s : State World T) (c : Category World T).
Implicit Types (cl : Client World) (h : list T).

Lemma lookups_done c fuel ks s :
  once s = true →
  lookups c fuel ks s = Some ((λ k, serve c k s) <$> ks, s).
Proof.
  intros Ho. induction ks as [|k ks IH]; [done|]. simpl.
  rewrite GetByKey_done by done. simpl. by rewrite IH.
Qed.

(** X6.  Lookups of one category, made one after the other on a new
    cache, cost one listing however many they are: the first one sends the
    requests of the traversal, the others none, and each returns what its
    key yields in the state the traversal left, so that neither the order of
    the lookups nor their number shows in any result.  Without a lookup
    nothing is requested. *)
Theorem lookups_one_traversal c cl h reqs pages o w' fuel ks :
  Fetched (fetch c) (world cl) reqs pages o w' →
  length reqs ≤ fuel →
  ∃ s,
    ensure c fuel (newBulkCache cl h) = Some s ∧
    client s = mkClient w' (calls cl ++ reqs) ∧
    lookups c fuel ks (newBulkCache cl h)
    = Some ((λ k, serve c k s) <$> ks,
            if ks is [] then newBulkCache cl h else s) ∧
    ∀ fuel' ks', lookups c fuel' ks' s = Some ((λ k, serve c k s) <$> ks', s).
Proof.
  intros HF Hfuel. set (s := terminal c cl h reqs pages o w').
  pose proof (ensure_Fetched c cl h reqs pages o w' HF fuel Hfuel) as He.
  exists s. split; [done|]. split; [done|]. split.
  - destruct ks as [|k ks]; [done|]. simpl. unfold GetByKey. rewrite He.
    simpl. by rewrite lookups_done.
  - intros fuel' ks'. by apply lookups_done.
Qed.

End SequenceProperties.

Section WorkflowStateCallProperties.
Context {World : Type}.
Implicit Types (s : State World WorkflowState).
Implicit Types (c : Category World WorkflowState).
Implicit Types (cl : Client World) (h : list WorkflowState).

Lemma readSlice_app (h more : list WorkflowState) sl vs :
  readSlice sl h = Some vs → readSlice sl (h ++ more) = Some vs.
Proof.
  unfold readSlice. rewrite !mapM_Some. intros HF.
  eapply Forall2_impl; [exact HF|]. intros a v Ha. by apply lookup_app_l_Some.
Qed.

Lemma wsExpected_app c s (hp more : list WorkflowState) op r :
  wsExpected c s hp op r → wsExpected c s (hp ++ more) op r.
Proof.
  destruct op, r as [r|[sl e]]; simpl; try done.
  intros [He Hr]. split; [done|]. by apply readSlice_app.
Qed.

(** Calls on a populated cache to which callers have added cells. *)
Lemma wsCalls_populated c cl h reqs pages w' fuel ops :
  let s := terminal c cl h reqs pages None w' in
  ∀ extra, ∃ rs extra',
    wsCalls c fuel ops (set_heap (heap s ++ extra) s)
    = Some (rs, set_heap (heap s ++ extra ++ extra') s) ∧
    Forall2 (wsExpected c s (heap s ++ extra ++ extra')) ops rs.
Proof.
  intros s. induction ops as [|op ops IH]; intros extra.
  - exists [], []. rewrite app_nil_r. split; [done|constructor].
  - destruct op as [id|ord teamID]; cbn [wsCalls wsCall].
    + rewrite GetByKey_done by done. cbn [mbind option_bind].
      destruct (IH extra) as (rs & extra' & -> & Hall). cbn [mbind option_bind].
      exists (inl (serve c id (set_heap (heap s ++ extra) s)) :: rs), extra'.
      split; [done|]. constructor; [done|exact Hall].
    + pose proof (scan_populated c cl h reqs pages w' fuel ord teamID extra)
        as Hscan.
      fold s in Hscan. rewrite Hscan. cbn [mbind option_bind].
      set (vs := selected c cl h reqs pages w' ord teamID) in *.
      destruct (IH (extra ++ vs)) as (rs & extra' & Hrest & Hall).
      rewrite Hrest. cbn [mbind option_bind].
      eexists _, (vs ++ extra'). rewrite <-!app_assoc in *.
      split; [done|]. constructor; [|exact Hall].
      unfold wsExpected. split; [done|].
      change (readSlice (seq (length (heap s ++ extra)) (length vs))
                (heap s ++ extra ++ vs ++ extra') = Some vs).
      rewrite (app_assoc (heap s) extra (vs ++ extra')).
      rewrite (app_assoc (heap s ++ extra) vs extra').
      apply readSlice_app, (readSlice_seq (heap s ++ extra) vs).
Qed.

(** X7.  [GetWorkflowState] and [GetWorkflowStatesByTeamID] share one
    gate.  Whatever calls of the two are made on a new cache, in whatever
    order, the workflow states are listed once, by the first call; every
    lookup by identifier returns the pointer into the cache that it would
    return alone; every scan returns a slice of its own whose elements are,
    and remain until the end, the cached records owned by the team; and
    the mapping and the records it points to end as the listing left
    them. *)
Theorem workflow_state_calls_share_listing c cl h reqs pages w' fuel ops :
  Fetched (fetch c) (world cl) reqs pages None w' →
  length reqs ≤ fuel →
  ops ≠ [] →
  ∃ s rs s',
    ensure c fuel (newBulkCache cl h) = Some s ∧
    wsCalls c fuel ops (newBulkCache cl h) = Some (rs, s') ∧
    client s' = mkClient w' (calls cl ++ reqs) ∧
    once s' = true ∧ items s' = items s ∧ err s' = None ∧
    cached s' = cached s ∧
    (∃ more, heap s' = heap s ++ more) ∧
    Forall2 (wsExpected c s (heap s')) ops rs.
Proof.
  intros HF Hfuel Hops. set (s := terminal c cl h reqs pages None w').
  pose proof (ensure_Fetched c cl h reqs pages None w' HF fuel Hfuel) as He.
  destruct (wsCalls_populated c cl h reqs pages w' fuel ops [])
    as (rs & extra' & Hcalls & Hall).
  fold s in Hcalls, Hall.
  change ([] ++ extra') with extra' in Hcalls, Hall.
  rewrite app_nil_r in Hcalls.
  change (set_heap (heap s) s) with s in Hcalls.
  exists s, rs, (set_heap (heap s ++ extra') s).
  split; [done|]. split.
  - rewrite <-Hcalls. destruct ops as [|op ops]; [done|].
    cbn [wsCalls].
    assert (wsCall c fuel op (newBulkCache cl h) = wsCall c fuel op s) as ->;
      [|done].
    destruct op as [id|ord teamID]; unfold wsCall.
    + unfold GetByKey. by rewrite He, ensure_done.
    + unfold GetWorkflowStatesByTeamID_in. by rewrite He, ensure_done.
  - do 4 (split; [done|]).
    split; [apply (cached_frame c cl h reqs pages w' extra')|].
    split; [by eexists|]. exact Hall.
Qed.

End WorkflowStateCallProperties.

(** * The categories of one struct *)

Section StructProperties.
Context {World : Type}.

Lemma categories_Separate :
  Separate (World:=World) labelsLens workflowStatesLens ∧
  Separate (World:=World) labelsLens templatesLens ∧
  Separate (World:=World) labelsLens teamsLens ∧
  Separate (World:=World) workflowStatesLens templatesLens ∧
  Separate (World:=World) workflowStatesLens teamsLens ∧
  Separate (World:=World) templatesLens teamsLens.
Proof.
  repeat split; try (intros [] [[] []]; reflexivity);
    try (intros [[] []]; reflexivity); intros [] []; reflexivity.
Qed.

Lemma Separate_sym {TA TB} (LA : Lens World TA) (LB : Lens World TB) :
  Separate LA LB → Separate LB LA.
Proof.
  intros (A & B & C & D & E & F & G & H).
  exact (conj B (conj A (conj D (conj C (conj F (conj E (conj H G))))))).
Qed.

Lemma onCategory_done {TA} (LA : Lens World TA) (cA : Category World TA)
    fuel k mb :
  (∀ mb', restore LA (focus LA mb') mb' = mb') →
  once (focus LA mb) = true →
  onCategory LA (GetByKey cA fuel k) mb
  = Some (serve cA k (focus LA mb), mb).
Proof.
  intros Hid Ho. unfold onCategory. rewrite GetByKey_done by done. simpl.
  by rewrite Hid.
Qed.

(** X8.  The sticky error of one category is confined to it.  Let the
    listing of one category fail and the listing of another category of
    the same struct, made afterwards through the same client, succeed.
    Then the lookups of the first category return its error, before and
    after the second category has been populated; the lookup of a key of
    the second category returns its record; and the client has been sent
    the requests of the two listings, each once. *)
Theorem error_confined_to_category {TA TB}
    (LA : Lens World TA) (LB : Lens World TB)
    (cA : Category World TA) (cB : Category World TB)
    cl m reqsA pagesA e w1 reqsB pagesB w2 fuel kA kB :
  Separate LA LB →
  Fetched (fetch cA) (world cl) reqsA pagesA (Some e) w1 →
  Fetched (fetch cB) w1 reqsB pagesB None w2 →
  length reqsA ≤ fuel → length reqsB ≤ fuel →
  kB ∈ key cB <$> concat pagesB →
  ∃ mb1 mb2 a r,
    onCategory LA (GetByKey cA fuel kA) (m, BulkCache_new cl)
    = Some ((NilPtr, Some e), mb1) ∧
    onCategory LB (GetByKey cB fuel kB) mb1 = Some ((Ptr a, None), mb2) ∧
    heap (focus LB mb2) !! a = Some r ∧ key cB r = kB ∧
    r ∈ concat pagesB ∧
    (∀ fuel' kA', onCategory LA (GetByKey cA fuel' kA') mb2
                  = Some ((NilPtr, Some e), mb2)) ∧
    client (focus LA mb2) = mkClient w2 (calls cl ++ reqsA ++ reqsB) ∧
    client (focus LB mb2) = mkClient w2 (calls cl ++ reqsA ++ reqsB).
Proof.
  intros (HAA & HBB & HidA & HidB & HAB & HBA & HnewA & HnewB)
         HFA HFB HfA HfB HkB.
  pose proof (HnewA cl m) as HA0. pose proof (HnewB cl m) as HB0.
  set (mb0 := (m, BulkCache_new cl)) in *.
  set (hA := heap (focus LA mb0)) in *. set (hB := heap (focus LB mb0)) in *.
  set (sA := terminal cA cl hA reqsA pagesA (Some e) w1).
  set (cl1 := mkClient w1 (calls cl ++ reqsA)).
  set (sB := terminal cB cl1 hB reqsB pagesB None w2).
  set (mb1 := restore LA sA mb0). set (mb2 := restore LB sB mb1).
  assert (focus LB mb1 = newBulkCache cl1 hB) as HB1.
  { subst mb1. by rewrite HAB, HB0. }
  assert (focus LA mb2 = set_client (client sB) sA) as HA2.
  { subst mb2 mb1. by rewrite HBA, HAA. }
  apply lastWith_is_Some in HkB as [r Hr].
  pose proof (serve_populated cB cl1 hB reqsB pagesB w2 kB) as Hs.
  rewrite Hr in Hs. destruct Hs as (i & Hi & Hs).
  exists mb1, mb2, (length hB + i), r.
  split; [|split; [|split; [|split; [|split; [|split; [|split]]]]]].
  - unfold onCategory, GetByKey. rewrite HA0.
    by rewrite (ensure_Fetched cA cl hA reqsA pagesA (Some e) w1 HFA fuel HfA).
  - unfold onCategory, GetByKey. rewrite HB1.
    rewrite (ensure_Fetched cB cl1 hB reqsB pagesB None w2 HFB fuel HfB).
    cbn [mbind option_bind]. by rewrite Hs.
  - subst mb2. rewrite HBB. unfold sB. by rewrite heap_terminal_lookup.
  - by apply lastWith_Some in Hr as [? _].
  - by eapply list_elem_of_lookup_2.
  - intros fuel' kA'. rewrite onCategory_done; [|done|by rewrite HA2].
    by rewrite HA2.
  - rewrite HA2. simpl. by rewrite <-app_assoc.
  - subst mb2. rewrite HBB. simpl. by rewrite <-app_assoc.
Qed.

End StructProperties.

(** * The outcome of a race *)

Section RaceOutcome.
Context {World T : Type}.
Variables (c : Category World T) (cl : Client World) (h : list T).
Variables (reqs : list Request) (pages : list (list T)).
Variables (o : option error) (w' : World).
Hypothesis HF : Fetched (fetch c) (world cl) reqs pages o w'.

Local Abbreviation F := (newBulkCache cl h).
Local Abbreviation Tm := (terminal c cl h reqs pages o w').
Implicit Types (cfg : Config World T).



End RaceOutcome.

Section RaceOutcomeTheorem.
Context {World T : Type}.
Implicit Types (c : Category World T) (cl : Client World) (h : list T).


End RaceOutcomeTheorem.

(** * The diagnostic trace *)

Section TraceProperties.
Context {World T : Type}.
Implicit Types (s : State World T) (c : Category World T).
Implicit Types (cl : Client World) (h : list T) (log : list string).

Lemma pageLoopCtl_erase c listPage fuel cursor s :
  snd <$> pageLoopCtl c listPage fuel cursor s
  = pageLoop c listPage fuel cursor s.
Proof.
  revert cursor s. induction fuel as [|fuel IH]; intros cursor s; [done|].
  simpl. destruct (pageStep c listPage cursor s) as [[ctl s']|]; [|done].
  simpl. by destruct ctl.
Qed.

(** The loop is left by [return] with an error in the slot, and by [break]
    with the slot as it was. *)
Lemma pageLoopCtl_err c listPage fuel cursor s ctl s' :
  pageLoopCtl c listPage fuel cursor s = Some (ctl, s') →
  match ctl with
  | Return => is_Some (err s')
  | Break => err s' = err s
  | Continue _ => False
  end.
Proof.
  revert cursor s. induction fuel as [|fuel IH]; intros cursor s; [done|].
  simpl. destruct (pageStep c listPage cursor s) as [[ctl1 s1]|] eqn:Hs;
    [|done].
  simpl. unfold pageStep, callPage in Hs.
  destruct (listPage cursor (world (client s))) as [[resp e] w].
  destruct e as [e|]; simpl in Hs.
  - injection Hs as <- <-. intros [= <- <-]. by eexists.
  - destruct (mergeNodes c (Nodes resp) _) as [s2|] eqn:Hm; [|done].
    apply mergeNodes_frame in Hm as (_ & _ & He). simpl in *.
    destruct (HasNextPage (PageInfoOf resp)); injection Hs as <- <-.
    + intros Hl. apply IH in Hl. destruct ctl; [done| |done]. congruence.
    + intros [= <- <-]. done.
Qed.

Lemma ensureTraced_erase c plural fuel s log :
  fst <$> ensureTraced c plural fuel s log = ensure c fuel s.
Proof.
  unfold ensureTraced, ensure, Do, populateTraced, populate.
  destruct (once s); [done|]. destruct (fetch c) as [listPage|listAll].
  - rewrite <-pageLoopCtl_erase.
    destruct (pageLoopCtl c listPage fuel None _) as [[ctl s']|]; [|done].
    simpl. by destruct ctl.
  - unfold wholeList. destruct (callAll listAll s) as [[nodes e] s1].
    destruct e as [e|]; [done|].
    by destruct (mergeNodes c nodes _).
Qed.

Lemma insertAll_size c a (recs : list T) :
  size (insertAll c a recs ∅) = length (remove_dups (key c <$> recs)).
Proof.
  rewrite <-size_dom, insertAll_dom, dom_empty_L, (left_id_L ∅ (∪)).
  rewrite <-(size_list_to_set (C:=gset string) (remove_dups _))
    by apply NoDup_remove_dups.
  f_equal. apply set_eq. intros k.
  by rewrite !elem_of_list_to_set, elem_of_remove_dups.
Qed.

(** X10.  What the populate routine logs.  The messages never reach the
    cache: with them left out, [ensureTraced] is [ensure].  On a new cache
    the first call logs the start message before the listing; the message
    of completion follows only when the listing succeeded, and the number
    in it is the number of keys in the map, that is of distinct keys
    received, which is less than the number of records when a key came
    twice.  A failed listing leaves the start message without its
    counterpart.  Calls on a fired gate log nothing. *)
Theorem completion_logged_only_on_success
    c plural cl h reqs pages o w' fuel log :
  Fetched (fetch c) (world cl) reqs pages o w' →
  length reqs ≤ fuel →
  (∀ fuel0 s0 log0,
     fst <$> ensureTraced c plural fuel0 s0 log0 = ensure c fuel0 s0) ∧
  ∃ s,
    ensure c fuel (newBulkCache cl h) = Some s ∧
    ensureTraced c plural fuel (newBulkCache cl h) log
    = Some (s, log ++ fetchingMsg plural ::
                 match o with
                 | None =>
                     [fetchedMsg (length (remove_dups (key c <$> concat pages)))
                                 plural]
                 | Some _ => []
                 end) ∧
    (∀ fuel' k log',
       GetByKeyTraced c plural fuel' k s log' = Some (serve c k s, s, log')).
Proof.
  intros HF Hfuel. split; [intros; apply ensureTraced_erase|].
  pose proof (ensure_Fetched c cl h reqs pages o w' HF fuel Hfuel) as He.
  exists (terminal c cl h reqs pages o w'). split; [done|]. split; [|done].
  pose proof (ensureTraced_erase c plural fuel (newBulkCache cl h) log) as Her.
  rewrite He in Her.
  destruct (ensureTraced c plural fuel (newBulkCache cl h) log)
    as [[s' log']|] eqn:Het; [|done].
  simpl in Her. apply (inj Some) in Her. subst s'. f_equal. f_equal.
  unfold ensureTraced, populateTraced in Het. simpl in Het.
  destruct (fetch c) as [listPage|listAll] eqn:Hf.
  - destruct (pageLoopCtl c listPage fuel None _) as [[ctl s1]|] eqn:Hl;
      [|done].
    pose proof (pageLoopCtl_err _ _ _ _ _ _ _ Hl) as Hctl. simpl in Hctl.
    assert (set_once true s1 = terminal c cl h reqs pages o w'
            ∧ log' = match ctl with
                     | Return => log ++ [fetchingMsg plural]
                     | _ => (log ++ [fetchingMsg plural])
                            ++ [fetchedMsg (mapLen (items s1)) plural]
                     end) as [Hs1 ->].
    { destruct ctl; cbn [mbind option_bind] in Het;
        apply (inj Some), pair_equal_spec in Het as [H1 H2]; by split. }
    assert (err s1 = o ∧
            items s1 = Some (insertAll c (length h) (concat pages) ∅))
      as [Ho Hi].
    { change (err s1) with (err (set_once true s1)).
      change (items s1) with (items (set_once true s1)).
      rewrite Hs1. unfold terminal. simpl. rewrite Hf. by destruct o. }
    destruct ctl as [cursor'| |]; [done| |].
    + rewrite Ho in Hctl. subst o. rewrite Hi. simpl.
      rewrite insertAll_size. by rewrite <-app_assoc.
    + rewrite Ho in Hctl. destruct Hctl as [e ->]. done.
  - unfold callAll in Het. simpl in Het.
    remember (world cl) as w0 eqn:Hw. remember (Whole listAll) as f eqn:Hff.
    destruct HF as [? ? ? ? ? ?|listAll' w nodes w' Hla
                   |listAll' w nodes e w' Hla]; [done| |];
      injection Hff as <-; subst w; rewrite Hla in Het; simpl in Het.
    + erewrite mergeNodes_Some in Het by done. simpl in Het.
      apply (inj Some), pair_equal_spec in Het as [_ <-].
      simpl. rewrite app_nil_r, insertAll_size. by rewrite <-app_assoc.
    + by apply (inj Some), pair_equal_spec in Het as [_ <-].
Qed.

End TraceProperties.

(** * The properties on the example remotes *)

Section PropertyWitnesses.
Import Mock MoreMock.

Lemma endless_listing_never_returns_witness :
  (∀ cursor s, is_Some (items s) →
     ∃ cursor' s',
       pageStep (labelsCategory labelsEndless) labelsEndless cursor s
       = Some (Continue cursor', s') ∧
       is_Some (items s') ∧
       calls (client s') = calls (client s) ++ [ListPage cursor]) ∧
  (∀ fuel, ensureLabels labelsEndless fuel (newBulkCache fresh []) = None) ∧
  (∀ fuel k, GetLabel labelsEndless fuel k (newBulkCache fresh []) = None).
Proof.
  apply (endless_listing_never_returns (labelsCategory labelsEndless)
           labelsEndless fresh [] eq_refl).
  intros cursor w. split; reflexivity.
Defined.

Lemma cache_entries_consistent_witness :
  let s := terminal (labelsCategory labelsFlaky) fresh []
             [ListPage None; ListPage (Some "A")] [[bug; feature]]
             (Some (RemoteError "502 Bad Gateway")) 2 in
  ensureLabels labelsFlaky 2 (newBulkCache fresh []) = Some s ∧
  (∃ more, heap s = [] ++ more) ∧
  (∀ k p, mapIndex (items s) k = Some p →
     ∃ a r, p = Ptr a ∧ length (@nil IssueLabel) ≤ a ∧
            heap s !! a = Some r ∧ IssueLabel_Id r = k) ∧
  (∀ k1 k2 p, mapIndex (items s) k1 = Some p →
              mapIndex (items s) k2 = Some p → k1 = k2).
Proof.
  intros s. split; [reflexivity|].
  apply (cache_entries_consistent (labelsCategory labelsFlaky) fresh [] 2 s).
  reflexivity.
Defined.

Lemma lookup_returns_alias_witness :
  ∃ s a,
    (∀ fuel, 3 ≤ fuel →
       ensureLabels labels3 fuel (newBulkCache fresh []) = Some s) ∧
    (∀ fuel, GetLabel labels3 fuel "L3" s = Some ((Ptr a, None), s)) ∧
    ∀ v, ∃ h',
      ptrStore (Ptr a) v (heap s) = Some h' ∧
      (∀ fuel, GetLabel labels3 fuel "L3" (set_heap h' s)
               = Some ((Ptr a, None), set_heap h' s)) ∧
      deref (Ptr a) h' = Some v ∧
      cached (set_heap h' s) !! "L3" = Some v ∧
      (∀ k', k' ≠ "L3" → cached (set_heap h' s) !! k' = cached s !! k') ∧
      (IssueLabel_Id v ∉ IssueLabel_Id <$> [bug; feature; chore; docs] →
       ∀ fuel, GetLabel labels3 fuel (IssueLabel_Id v) (set_heap h' s)
               = Some ((NilPtr,
                        Some (notFound (labelsCategory labels3)
                                (IssueLabel_Id v))),
                       set_heap h' s)).
Proof.
  apply (lookup_returns_alias (labelsCategory labels3) fresh [] _ _ _ "L3"
           labels3_Fetched).
  apply (list_elem_of_lookup_2 _ 2). reflexivity.
Defined.

Lemma lookups_one_traversal_witness :
  ∃ s,
    ensureLabels labelsFlaky 2 (newBulkCache fresh []) = Some s ∧
    client s = mkClient 2 [ListPage None; ListPage (Some "A")] ∧
    lookups (labelsCategory labelsFlaky) 2 racers (newBulkCache fresh [])
    = Some ((λ k, serve (labelsCategory labelsFlaky) k s) <$> racers, s) ∧
    ∀ fuel' ks',
      lookups (labelsCategory labelsFlaky) fuel' ks' s
      = Some ((λ k, serve (labelsCategory labelsFlaky) k s) <$> ks', s).
Proof.
  apply (lookups_one_traversal (labelsCategory labelsFlaky) fresh [] _ _ _ _
           2 racers labelsFlaky_Fetched).
  simpl. lia.
Defined.

Lemma workflow_state_calls_share_listing_witness :
  ∃ s rs s',
    ensureWorkflowStates states3 2 (newBulkCache fresh []) = Some s ∧
    wsCalls (workflowStatesCategory states3) 2 mixedCalls
      (newBulkCache fresh []) = Some (rs, s') ∧
    client s' = mkClient 2 [ListPage None; ListPage (Some "A")] ∧
    once s' = true ∧ items s' = items s ∧ err s' = None ∧
    cached s' = cached s ∧
    (∃ more, heap s' = heap s ++ more) ∧
    Forall2 (wsExpected (workflowStatesCategory states3) s (heap s'))
      mixedCalls rs.
Proof.
  apply (workflow_state_calls_share_listing (workflowStatesCategory states3)
           fresh [] _ _ _ 2 mixedCalls states3_Fetched).
  - simpl. lia.
  - discriminate.
Defined.

Lemma labelsDown_Fetched :
  Fetched (fetch (labelsCategory labelsDown)) (world fresh)
    [ListPage None] [] (Some (RemoteError "labels unavailable")) 1.
Proof.
  apply (Fetched_paged labelsDown 0 []
           (Some (RemoteError "labels unavailable")) 1).
  eapply Served_fail. reflexivity.
Defined.

Lemma teamsAfter_Fetched :
  Fetched (fetch (teamsCategory teamsAfter)) 1
    [ListPage None; ListPage (Some "A")] [[eng]; [ops]] None 3.
Proof.
  apply (Fetched_paged teamsAfter 1
           [mkConnection [eng] (mkPageInfo true "A");
            mkConnection [ops] (mkPageInfo false "B")] None 3).
  eapply Served_more; [reflexivity|reflexivity|].
  eapply Served_last; reflexivity.
Defined.

Lemma error_confined_to_category_witness :
  ∃ mb1 mb2 a r,
    BulkCache_GetLabel labelsDown 2 "L1" (noMemory, BulkCache_new fresh)
    = Some ((NilPtr, Some (RemoteError "labels unavailable")), mb1) ∧
    BulkCache_GetTeamByKey teamsAfter 2 "OPS" mb1
    = Some ((Ptr a, None), mb2) ∧
    teamCells mb2.1 !! a = Some r ∧ Team_Key r = "OPS" ∧
    r ∈ [eng; ops] ∧
    (∀ fuel' id,
       BulkCache_GetLabel labelsDown fuel' id mb2
       = Some ((NilPtr, Some (RemoteError "labels unavailable")), mb2)) ∧
    bc_client mb2.2
    = mkClient 3 [ListPage None; ListPage None; ListPage (Some "A")] ∧
    bc_client mb2.2
    = mkClient 3 [ListPage None; ListPage None; ListPage (Some "A")].
Proof.
  destruct (error_confined_to_category labelsLens teamsLens
              (labelsCategory labelsDown) (teamsCategory teamsAfter)
              fresh noMemory _ _ _ _ _ _ _ 2 "L1" "OPS"
              (proj1 (proj2 (proj2 categories_Separate)))
              labelsDown_Fetched teamsAfter_Fetched)
    as (mb1 & [m2 b2] & a & r & H);
    [simpl; lia|simpl; lia|apply (list_elem_of_lookup_2 _ 1); reflexivity|].
  exists mb1, (m2, b2), a, r. exact H.
Defined.


Lemma labelsDup_Fetched :
  Fetched (fetch (labelsCategory labelsDup)) (world fresh)
    [ListPage None; ListPage (Some "A")] [[bug; feature]; [chore; bug2]]
    None 2.
Proof.
  apply (Fetched_paged labelsDup 0 [labelPage1; labelPageDup] None 2).
  eapply Served_more; [reflexivity|reflexivity|].
  eapply Served_last; reflexivity.
Defined.

(** Four records under three identifiers: the message counts three. *)
Lemma completion_logged_only_on_success_witness :
  (∀ fuel0 s0 log0,
     fst <$> ensureLabelsTraced labelsDup fuel0 s0 log0
     = ensureLabels labelsDup fuel0 s0) ∧
  ∃ s,
    ensureLabels labelsDup 2 (newBulkCache fresh []) = Some s ∧
    ensureLabelsTraced labelsDup 2 (newBulkCache fresh []) []
    = Some (s, ["bulk fetching all issue labels";
                "bulk fetched 3 issue labels"]) ∧
    (∀ fuel' k log',
       GetByKeyTraced (labelsCategory labelsDup) "issue labels" fuel' k s log'
       = Some (serve (labelsCategory labelsDup) k s, s, log')).
Proof.
  apply (completion_logged_only_on_success (labelsCategory labelsDup)
           "issue labels" fresh [] _ _ _ _ 2 [] labelsDup_Fetched).
  simpl. lia.
Defined.

(** After a failure the start message stays alone. *)
Example trace_failure :
  snd <$> ensureLabelsTraced labelsFlaky 2 (newBulkCache fresh []) []
  = Some ["bulk fetching all issue labels"].
Proof. reflexivity. Qed.

Example trace_templates :
  snd <$> ensureTemplatesTraced templates2 0 (newBulkCache fresh []) []
  = Some ["bulk fetching all templates"; "bulk fetched 2 templates"].
Proof. reflexivity. Qed.

End PropertyWitnesses.
